(** * VolumeFader (src/volumefader.js, v0.2.0): a shallow embedding

    Numbers are modelled as JavaScript numbers over the reals: [NaN], the two
    infinities and finite values.  Finite arithmetic is exact real arithmetic
    (rounding of IEEE doubles is not modelled); signed zero is not modelled.

    The media element is the slot [media] of the world.  Assigning its
    [volume] follows HTMLMediaElement: a non-finite value is refused with a
    TypeError and a finite value outside [0,1] with an IndexSizeError, and
    the volume is then unchanged.  The host's frame scheduler is the count
    [pending] of registered [requestAnimationFrame] callbacks; [Date.now()]
    reads successive values of an arbitrary [clock].

    A user callback is a function that may call the fader's methods while it
    runs (re-entrantly), catch or propagate their exceptions, and then
    return or throw.  Which calls it makes is given by an environment [env]
    for each function and each invocation, so a callback may behave
    differently from one invocation to the next.  Invocations are logged by
    the identity of the fade record whose callback was called.  Nested
    method calls are bounded by the host's stack: past [stack_limit] nested
    updates the engine throws a RangeError.  A custom [volumeScaler] returns
    a number or throws; it does not call the fader.  The fader is
    constructed without a logger ([options.logger] not a function), so the
    logging lines do nothing.  Method arguments and option values are
    numbers or absent ([undefined]); the conversions JavaScript applies to
    other values (strings, [null], objects) are not modelled, apart from
    [false] and [undefined] in the v0.1 section. *)

From Stdlib Require Import Reals Lra Lia List Bool.
Import ListNotations.
Open Scope R_scope.

(** ** JavaScript numbers *)

Inductive num : Type :=
| NaN
| PosInf
| NegInf
| Fin (x : R).

Definition Rltb (x y : R) : bool := if Rlt_dec x y then true else false.
Definition Rleb (x y : R) : bool := if Rle_dec x y then true else false.
Definition Reqb (x y : R) : bool := if Req_dec_T x y then true else false.

Definition isNaN (v : num) : bool :=
  match v with NaN => true | _ => false end.

(** [x < y] on numbers: any comparison with NaN is false. *)
Definition js_lt (v w : num) : bool :=
  match v, w with
  | NaN, _ | _, NaN => false
  | Fin x, Fin y => Rltb x y
  | NegInf, NegInf => false
  | NegInf, _ => true
  | _, PosInf => match v with PosInf => false | _ => true end
  | _, _ => false
  end.

Definition js_le (v w : num) : bool :=
  match v, w with
  | NaN, _ | _, NaN => false
  | Fin x, Fin y => Rleb x y
  | NegInf, _ => true
  | _, PosInf => true
  | _, _ => false
  end.

Definition js_gt (v w : num) : bool := js_lt w v.
Definition js_ge (v w : num) : bool := js_le w v.

(** Loose equality [==] between two numbers. *)
Definition js_eq (v w : num) : bool :=
  match v, w with
  | Fin x, Fin y => Reqb x y
  | PosInf, PosInf | NegInf, NegInf => true
  | _, _ => false
  end.

Definition js_neg (v : num) : num :=
  match v with
  | NaN => NaN | PosInf => NegInf | NegInf => PosInf | Fin x => Fin (- x)
  end.

Definition js_add (v w : num) : num :=
  match v, w with
  | NaN, _ | _, NaN => NaN
  | PosInf, NegInf | NegInf, PosInf => NaN
  | PosInf, _ | _, PosInf => PosInf
  | NegInf, _ | _, NegInf => NegInf
  | Fin x, Fin y => Fin (x + y)
  end.

Definition js_sub (v w : num) : num := js_add v (js_neg w).

(** Sign of a number: [Some true] positive, [Some false] negative,
    [None] for zero and NaN. *)
Definition sign (v : num) : option bool :=
  match v with
  | NaN => None
  | PosInf => Some true
  | NegInf => Some false
  | Fin x => if Rltb 0 x then Some true else if Rltb x 0 then Some false else None
  end.

Definition inf_of (positive : bool) : num := if positive then PosInf else NegInf.

Definition js_mul (v w : num) : num :=
  match v, w with
  | NaN, _ | _, NaN => NaN
  | Fin x, Fin y => Fin (x * y)
  | _, _ =>
      match sign v, sign w with
      | Some p, Some q => inf_of (Bool.eqb p q)
      | _, _ => NaN
      end
  end.

Definition js_div (v w : num) : num :=
  match v, w with
  | NaN, _ | _, NaN => NaN
  | Fin x, Fin y =>
      if Reqb y 0 then
        match sign v with Some p => inf_of p | None => NaN end
      else Fin (x / y)
  | Fin _, _ => Fin 0
  | _, Fin _ =>
      match sign v, sign w with
      | Some p, Some q => inf_of (Bool.eqb p q)
      | Some p, None => inf_of p
      | _, _ => NaN
      end
  | _, _ => NaN
  end.

(** [Math.pow(10, v)]. *)
Definition pow10 (v : num) : num :=
  match v with
  | NaN => NaN
  | PosInf => PosInf
  | NegInf => Fin 0
  | Fin y => Fin (Rpower 10 y)
  end.

(** ** Utilities of volumefader.js *)

(** [validateVolumeLevel] (lines 24-37): [true] when it returns, [false]
    when it throws. *)
Definition validateVolumeLevel (value : num) : bool :=
  negb (isNaN value) && js_ge value (Fin 0) && js_le value (Fin 1).

(** [exponentialScaler] (lines 42-60). *)
Definition exponentialScaler (logarithmic : num) : num :=
  if js_eq logarithmic (Fin 0) then Fin 0
  else pow10 (js_mul (js_sub logarithmic (Fin 1)) (Fin 3)).

(** The default scaler as the value of [this.volumeScaler]: it never
    throws. *)
Definition default_scaler (l : num) : option num := Some (exponentialScaler l).

(** ** Controller state *)

(** A callback argument: a value that is not a function (e.g. [undefined]),
    or a function, named by a tag. *)
Inductive callback_t : Type :=
| NotFunction
| Fn (tag : nat).

(** A call a user function makes on the fader while it runs. *)
Inductive action : Type :=
| ActStart
| ActStop
| ActSetFadeDuration (d : num)
| ActFadeTo (v : num) (cb : callback_t)
| ActFadeIn (cb : callback_t)
| ActFadeOut (cb : callback_t)
| ActUpdate.

(** One invocation of a user function: it makes the calls of [body] in
    order, each outside any [try] ([false]: an exception ends the function
    and propagates) or inside [try { ... } catch (e) {}] ([true]); then it
    returns normally, or throws if [throws] is set. *)
Record behaviour : Type := mkBehaviour {
  body : list (action * bool);
  throws : bool
}.

(** The object literal built by [fadeTo]; [fid] is its object identity. *)
Record fade_t : Type := mkFade {
  fid : nat;
  volume_start : num;
  volume_end : num;
  time_start : num;
  time_end : num;
  callback : callback_t
}.

Record world : Type := mkWorld {
  media : num;                       (* media.volume *)
  active : bool;                     (* this.active *)
  fade : option fade_t;              (* this.fade, [None] for undefined *)
  fadeDuration : num;                (* this.fadeDuration *)
  volumeScaler : num -> option num;  (* this.volumeScaler, [None] if it throws *)
  pending : nat;                     (* registered animation-frame callbacks *)
  calls : list nat;                  (* fades whose callback has been invoked *)
  clock : nat -> num;                (* successive values of Date.now() *)
  reads : nat;                       (* number of Date.now() calls so far *)
  next_id : nat;                     (* identity of the next allocated object *)
  env : nat -> nat -> behaviour;     (* function [tag] at the n-th callback invocation *)
  stack_limit : nat                  (* nested updates the host stack allows *)
}.

Definition set_media (v : num) (w : world) : world :=
  mkWorld v w.(active) w.(fade) w.(fadeDuration) w.(volumeScaler) w.(pending)
    w.(calls) w.(clock) w.(reads) w.(next_id) w.(env) w.(stack_limit).
Definition set_active (b : bool) (w : world) : world :=
  mkWorld w.(media) b w.(fade) w.(fadeDuration) w.(volumeScaler) w.(pending)
    w.(calls) w.(clock) w.(reads) w.(next_id) w.(env) w.(stack_limit).
Definition set_fade (f : option fade_t) (w : world) : world :=
  mkWorld w.(media) w.(active) f w.(fadeDuration) w.(volumeScaler) w.(pending)
    w.(calls) w.(clock) w.(reads) w.(next_id) w.(env) w.(stack_limit).
Definition set_fadeDuration (d : num) (w : world) : world :=
  mkWorld w.(media) w.(active) w.(fade) d w.(volumeScaler) w.(pending)
    w.(calls) w.(clock) w.(reads) w.(next_id) w.(env) w.(stack_limit).
Definition set_pending (n : nat) (w : world) : world :=
  mkWorld w.(media) w.(active) w.(fade) w.(fadeDuration) w.(volumeScaler) n
    w.(calls) w.(clock) w.(reads) w.(next_id) w.(env) w.(stack_limit).
Definition log_call (k : nat) (w : world) : world :=
  mkWorld w.(media) w.(active) w.(fade) w.(fadeDuration) w.(volumeScaler)
    w.(pending) (w.(calls) ++ [k]) w.(clock) w.(reads) w.(next_id) w.(env)
    w.(stack_limit).
Definition alloc (w : world) : nat * world :=
  (w.(next_id), mkWorld w.(media) w.(active) w.(fade) w.(fadeDuration)
    w.(volumeScaler) w.(pending) w.(calls) w.(clock) w.(reads) (S w.(next_id))
    w.(env) w.(stack_limit)).

(** [Date.now()]. *)
Definition date_now (w : world) : num * world :=
  (w.(clock) w.(reads), mkWorld w.(media) w.(active) w.(fade) w.(fadeDuration)
    w.(volumeScaler) w.(pending) w.(calls) w.(clock) (S w.(reads)) w.(next_id)
    w.(env) w.(stack_limit)).

(** ** Results of a method call *)

Inductive value : Type := This | Undefined.

(** [CallbackError] is whatever a user callback throws, [ScalerError]
    whatever a custom scaler throws, [IndexSizeError] the DOMException of
    the volume setter, [RangeError] the engine's stack overflow. *)
Inductive error : Type :=
| TypeError
| CallbackError
| ScalerError
| IndexSizeError
| RangeError.

Inductive result : Type :=
| Ok (v : value) (w : world)
| Exn (e : error) (w : world).

Definition res_world (r : result) : world :=
  match r with Ok _ w | Exn _ w => w end.

(** [media.volume = v] on an HTMLMediaElement. *)
Definition set_volume (v : num) (w : world) : result :=
  match v with
  | Fin x => if Rleb 0 x && Rleb x 1 then Ok Undefined (set_media v w)
             else Exn IndexSizeError w
  | _ => Exn TypeError w
  end.

(** [this.media.volume = this.volumeScaler(l)] (lines 143, 235, 246). *)
Definition write_scaled (l : num) (w : world) : result :=
  match w.(volumeScaler) l with
  | None => Exn ScalerError w
  | Some v => set_volume v w
  end.

(** ** Methods of class VolumeFader *)

(** The fade level computed at lines 229-232. *)
Definition interp_level (f : fade_t) (now : num) : num :=
  let progress := js_div (js_sub now f.(time_start))
                         (js_sub f.(time_end) f.(time_start)) in
  js_add (js_mul progress (js_sub f.(volume_end) f.(volume_start)))
         f.(volume_start).

(** The methods that call [this.updateVolume()] are written over the
    update [uv] they call, so that a call nested in a callback runs one
    level deeper on the stack. *)

(** [start] (lines 170-180). *)
Definition start_with (uv : world -> result) (w : world) : result :=
  match uv (set_active true w) with
  | Ok _ w' => Ok This w'
  | Exn e w' => Exn e w'
  end.

(** [stop] (lines 183-190). *)
Definition stop (w : world) : result := Ok This (set_active false w).

(** [setFadeDuration] (lines 194-213). *)
Definition setFadeDuration (d : num) (w : world) : result :=
  if negb (isNaN d) && js_gt d (Fin 0)
  then Ok This (set_fadeDuration d w)
  else Exn TypeError w.

(** The record built at lines 271-276, from the volume read before the two
    [Date.now()] calls. *)
Definition new_fade (vs targetVolume : num) (cb : callback_t) (w : world)
  : fade_t * world :=
  let '(t1, w1) := date_now w in
  let '(t2, w2) := date_now w1 in
  let '(k, w3) := alloc w2 in
  (mkFade k vs targetVolume t1 (js_add t2 w3.(fadeDuration)) cb, w3).

(** [fadeTo] (lines 265-286). *)
Definition fadeTo_with (uv : world -> result) (targetVolume : num) (cb : callback_t)
  (w : world) : result :=
  if validateVolumeLevel targetVolume then
    let '(f, w1) := new_fade w.(media) targetVolume cb w in
    match start_with uv (set_fade (Some f) w1) with
    | Ok _ w2 => Ok This w2
    | Exn e w2 => Exn e w2
    end
  else Exn TypeError w.

(** [fadeIn] and [fadeOut] (lines 290-291): no [return] statement. *)
Definition fadeIn_with (uv : world -> result) (cb : callback_t) (w : world) : result :=
  match fadeTo_with uv (Fin 1) cb w with
  | Ok _ w' => Ok Undefined w'
  | Exn e w' => Exn e w'
  end.

Definition fadeOut_with (uv : world -> result) (cb : callback_t) (w : world) : result :=
  match fadeTo_with uv (Fin 0) cb w with
  | Ok _ w' => Ok Undefined w'
  | Exn e w' => Exn e w'
  end.

(** A method call made by a callback. *)
Definition act_with (uv : world -> result) (a : action) (w : world) : result :=
  match a with
  | ActStart => start_with uv w
  | ActStop => stop w
  | ActSetFadeDuration d => setFadeDuration d w
  | ActFadeTo v cb => fadeTo_with uv v cb w
  | ActFadeIn cb => fadeIn_with uv cb w
  | ActFadeOut cb => fadeOut_with uv cb w
  | ActUpdate => uv w
  end.

Fixpoint run_body (uv : world -> result) (l : list (action * bool)) (w : world)
  : result :=
  match l with
  | [] => Ok Undefined w
  | (a, caught) :: rest =>
      match act_with uv a w with
      | Ok _ w' => run_body uv rest w'
      | Exn e w' => if caught then run_body uv rest w' else Exn e w'
      end
  end.

(** Calling a user function. *)
Definition invoke (uv : world -> result) (b : behaviour) (w : world) : result :=
  match run_body uv b.(body) w with
  | Ok _ w' => if b.(throws) then Exn CallbackError w' else Ok Undefined w'
  | Exn e w' => Exn e w'
  end.

(** [updateVolume] (lines 217-261) with [depth] levels of stack left.  The
    callback of line 252 is [this.fade.callback], the record [f] itself;
    it runs after the volume write and [this.active = false], and line 255
    clears the record only when it returns. *)
Fixpoint updateVolume (depth : nat) (w : world) : result :=
  match depth with
  | O => Exn RangeError w
  | S d =>
      match w.(active), w.(fade) with
      | true, Some f =>
          let '(now, w1) := date_now w in
          if js_lt now f.(time_end) then
            match write_scaled (interp_level f now) w1 with
            | Ok _ w2 => Ok This (set_pending (S w2.(pending)) w2)
            | Exn e w2 => Exn e w2
            end
          else
            match write_scaled f.(volume_end) w1 with
            | Exn e w2 => Exn e w2
            | Ok _ w2 =>
                let w3 := set_active false w2 in
                match f.(callback) with
                | NotFunction => Ok This (set_fade None w3)
                | Fn tag =>
                    match invoke (updateVolume d) (w3.(env) tag (length w3.(calls)))
                                 (log_call f.(fid) w3) with
                    | Ok _ w4 => Ok This (set_fade None w4)
                    | Exn e w4 => Exn e w4
                    end
                end
            end
      | _, _ => Ok This w
      end
  end.

(** A call from outside (the page, or the frame scheduler) starts with the
    whole stack. *)
Definition depth (w : world) : nat := S w.(stack_limit).

Definition start (w : world) : result := start_with (updateVolume (depth w)) w.

Definition fadeTo (targetVolume : num) (cb : callback_t) (w : world) : result :=
  fadeTo_with (updateVolume (depth w)) targetVolume cb w.

Definition fadeIn (cb : callback_t) (w : world) : result :=
  fadeIn_with (updateVolume (depth w)) cb w.

Definition fadeOut (cb : callback_t) (w : world) : result :=
  fadeOut_with (updateVolume (depth w)) cb w.

(** The host fires one registered animation-frame callback
    ([this.updateVolume.bind(this)]). *)
Definition frame (w : world) : result :=
  match w.(pending) with
  | O => Ok Undefined w
  | S n => updateVolume (depth w) (set_pending n w)
  end.

(** ** Traces of calls on one controller *)

Inductive op : Type :=
| OpStart
| OpStop
| OpSetFadeDuration (d : num)
| OpFadeTo (v : num) (cb : callback_t)
| OpFadeIn (cb : callback_t)
| OpFadeOut (cb : callback_t)
| OpUpdate
| OpFrame.

Definition exec (o : op) (w : world) : result :=
  match o with
  | OpStart => start w
  | OpStop => stop w
  | OpSetFadeDuration d => setFadeDuration d w
  | OpFadeTo v cb => fadeTo v cb w
  | OpFadeIn cb => fadeIn cb w
  | OpFadeOut cb => fadeOut cb w
  | OpUpdate => updateVolume (depth w) w
  | OpFrame => frame w
  end.

(** A thrown exception ends the call, not the program: the next call starts
    from the world the exception left behind. *)
Fixpoint run (ops : list op) (w : world) : world :=
  match ops with
  | [] => w
  | o :: rest => run rest (res_world (exec o w))
  end.

(** A freshly constructed fader (constructor, lines 79-166, no options):
    default scaler, 500 ms, inactive, no fade. *)
Definition fresh (vol : num) (clk : nat -> num) (ev : nat -> nat -> behaviour)
  (lim : nat) : world :=
  mkWorld vol false None (Fin 500) default_scaler 0 [] clk 0 0 ev lim.

(** ** The constructor (lines 79-166) *)

(** [options.volumeScaler]: undefined, a function, or anything else. *)
Inductive scaler_opt : Type :=
| ScalerUndefined
| ScalerFunction (f : num -> option num)
| ScalerOther.

(** The options object; [None] is an undefined field. *)
Record options : Type := mkOptions {
  opt_volumeScaler : scaler_opt;
  opt_initialVolume : option num;
  opt_fadeDuration : option num
}.

Definition no_options : options := mkOptions ScalerUndefined None None.

Inductive construction : Type :=
| Constructed (w : world)
| CtorThrows (e : error).

(** [new VolumeFader(media, options)]: [is_media] is
    [media instanceof HTMLMediaElement], [vol] the element's volume, [clk]
    the host clock, [ev] the behaviour of the page's functions and [lim] the
    host's stack.  Before line 153 or 158 [this.fadeDuration] is undefined;
    it is held as NaN there and always overwritten. *)
Definition construct (is_media : bool) (o : options) (vol : num)
  (clk : nat -> num) (ev : nat -> nat -> behaviour) (lim : nat) : construction :=
  if negb is_media then CtorThrows TypeError else
  let scaler := match o.(opt_volumeScaler) with
                | ScalerUndefined => Some default_scaler
                | ScalerFunction f => Some f
                | ScalerOther => None
                end in
  match scaler with
  | None => CtorThrows TypeError
  | Some sc =>
      let w0 := mkWorld vol false None NaN sc 0 [] clk 0 0 ev lim in
      let r1 := match o.(opt_initialVolume) with
                | None => Ok Undefined w0
                | Some v => if validateVolumeLevel v then write_scaled v w0
                            else Exn TypeError w0
                end in
      match r1 with
      | Exn e _ => CtorThrows e
      | Ok _ w1 =>
          match o.(opt_fadeDuration) with
          | None => Constructed (set_active false (set_fadeDuration (Fin 500) w1))
          | Some d =>
              match setFadeDuration d w1 with
              | Ok _ w2 => Constructed (set_active false w2)
              | Exn e _ => CtorThrows e
              end
          end
      end
  end.

(** ** Derived notions used by the statements *)

(** The fade level a step at time [now] passes to the scaler: the
    interpolated level before the end time (line 235), the end level from
    the end time on (line 246). *)
Definition applied_level (f : fade_t) (now : num) : num :=
  if js_lt now f.(time_end) then interp_level f now else f.(volume_end).

(** The scaler the constructor installs (a non-function option throws
    before it is used). *)
Definition chosen_scaler (o : options) : num -> option num :=
  match o.(opt_volumeScaler) with
  | ScalerFunction f => f
  | _ => default_scaler
  end.

(** Targets that [fadeTo] must reject. *)
Definition outside_unit (v : num) : Prop :=
  v = NaN \/ v = PosInf \/ v = NegInf \/ exists x, v = Fin x /\ (x < 0 \/ 1 < x).

(** Durations that [setFadeDuration] accepts. *)
Definition duration_accepted (d : num) : Prop :=
  d = PosInf \/ exists x, d = Fin x /\ 0 < x.

(** Values the volume setter accepts. *)
Definition volume_ok (v : num) : Prop := exists x, v = Fin x /\ 0 <= x /\ x <= 1.

(** [k] is an allocated identity that is not the current fade's. *)
Definition fresh_for (k : nat) (w : world) : Prop :=
  (k < w.(next_id))%nat /\ forall f, w.(fade) = Some f -> f.(fid) <> k.

(** Between [w] and [w'] callbacks were invoked, none of them fade [k]'s. *)
Definition calls_extend_without (k : nat) (w w' : world) : Prop :=
  exists l, w'.(calls) = w.(calls) ++ l /\ ~ In k l.

(** ** Concrete controllers *)

(** Functions that make no call and return, or throw. *)
Definition returns_plain : behaviour := mkBehaviour [] false.
Definition throws_plain : behaviour := mkBehaviour [] true.

Definition quiet_env : nat -> nat -> behaviour := fun _ _ => returns_plain.

(** The custom scaler [x => x]. *)
Definition identity_scaler (l : num) : option num := Some l.

(** A fader with the scaler [x => x], in the middle of a fade from 0 to 1
    over [0, 500] ms whose callback throws, updated at time 1000. *)
Definition throwing_fade : fade_t := mkFade 0 (Fin 0) (Fin 1) (Fin 0) (Fin 500) (Fn 0).

Definition w_throwing : world :=
  mkWorld (Fin 0) true (Some throwing_fade) (Fin 500) identity_scaler 0 []
    (fun _ => Fin 1000) 0 1 (fun _ _ => throws_plain) 8.

(** The same fade, whose callback chains [fadeOut()] (as in
    [fader.fadeIn(() => fader.fadeOut())]). *)
Definition chaining_fade : fade_t := mkFade 0 (Fin 0) (Fin 1) (Fin 0) (Fin 500) (Fn 0).

Definition w_chaining : world :=
  mkWorld (Fin 0) true (Some chaining_fade) (Fin 500) identity_scaler 0 []
    (fun _ => Fin 1000) 0 1 (fun _ _ => mkBehaviour [(ActFadeOut NotFunction, false)] false) 8.

(** The same fade with a custom scaler [x => 2 * x]. *)
Definition double_scaler (l : num) : option num := Some (js_mul (Fin 2) l).

Definition w_double : world :=
  mkWorld (Fin 0) true (Some (mkFade 0 (Fin 0) (Fin 1) (Fin 0) (Fin 500) NotFunction))
    (Fin 500) double_scaler 0 [] (fun _ => Fin 1000) 0 1 quiet_env 8.

(** A fresh fader at volume 0 whose clock stays at 1000 ms. *)
Definition w_fresh : world := fresh (Fin 0) (fun _ => Fin 1000) quiet_env 8.

(** A fade from 1 to 0 over [10, 20] ms, updated at time 0 (the clock has
    been set back). *)
Definition w_clock_back : world :=
  mkWorld (Fin 0) true (Some (mkFade 0 (Fin 1) (Fin 0) (Fin 10) (Fin 20) NotFunction))
    (Fin 500) default_scaler 0 [] (fun _ => Fin 0) 0 1 quiet_env 8.

(** A fade from 0 to 1 over [0, 500] ms whose callback returns, updated at
    time [t]. *)
Definition w_at (t : R) : world :=
  mkWorld (Fin 0) true (Some (mkFade 0 (Fin 0) (Fin 1) (Fin 0) (Fin 500) (Fn 0)))
    (Fin 500) default_scaler 0 [] (fun _ => Fin t) 0 1 quiet_env 8.

(** ** Relations between worlds used by the proofs *)

(** The completing step with an accepted end value: the world after the
    write and [this.active = false], before the callback. *)
Definition after_final_write (s : R) (w : world) : world :=
  set_active false (set_media (Fin s) (snd (date_now w))).

(** The callback log of [w'] extends that of [w]. *)
Definition calls_prefix (w w' : world) : Prop :=
  exists l, w'.(calls) = w.(calls) ++ l.

(** [k] stays fresh and its callback is not invoked. *)
Definition keeps_fresh (k : nat) (w : world) (r : result) : Prop :=
  fresh_for k (res_world r) /\ calls_extend_without k w (res_world r).

(** * The linear fader v0.1.0 (src/unnamed/part_000)

    The earlier version drives fades with one [setInterval] timer and moves
    the volume by increments.  The host's live interval timers are the list
    [live]; [setInterval] hands out the handles 1, 2, ...  Callbacks are
    user functions as in v0.2: they may call the fader's methods while they
    run, and nested updates are bounded by the host's stack. *)

Module V01.

(** Arguments the constructor, [start] and the setters receive, among
    [undefined], [false] and numbers. *)
Inductive arg : Type :=
| AUndefined
| AFalse
| ANum (n : num).

(** [Number.isNaN] does not convert its argument. *)
Definition number_isNaN (a : arg) : bool :=
  match a with ANum NaN => true | _ => false end.

(** The conversion of a relational operator or of the volume setter. *)
Definition to_num (a : arg) : num :=
  match a with AUndefined => NaN | AFalse => Fin 0 | ANum n => n end.

(** [validZeroToOne] and [validPositive] (lines 16-17). *)
Definition validZeroToOne (a : arg) : bool :=
  negb (number_isNaN a) && js_ge (to_num a) (Fin 0) && js_le (to_num a) (Fin 1).
Definition validPositive (a : arg) : bool :=
  negb (number_isNaN a) && js_gt (to_num a) (Fin 0).

(** Values passed as the media element: [undefined], [null], a primitive
    (boolean, number, string; with its truthiness), an object that is not a
    media element, or a media element. *)
Inductive jsv : Type :=
| JUndefined
| JNull
| JPrimitive (truthy : bool)
| JObject
| JMedia.

Definition truthy (v : jsv) : bool :=
  match v with
  | JUndefined | JNull => false
  | JPrimitive b => b
  | JObject | JMedia => true
  end.

(** [x instanceof HTMLMediaElement]. *)
Definition instanceof_media (v : jsv) : bool :=
  match v with JMedia => true | _ => false end.

(** Whether [x.volume = ...] can succeed in strict mode: only on objects. *)
Definition holds_volume (v : jsv) : bool :=
  match v with JObject | JMedia => true | _ => false end.

(** The calls a user function may make on the fader. *)
Inductive action01 : Type :=
| A_Start (a : arg)
| A_Stop
| A_SetUpdateInterval (a : arg)
| A_SetFadeDuration (a : arg)
| A_FadeTo (v : num) (cb : callback_t)
| A_FadeIn (cb : callback_t)
| A_FadeOut (cb : callback_t)
| A_Update.

Record behaviour01 : Type := mkBehaviour01 {
  body01 : list (action01 * bool);
  throws01 : bool
}.

(** The object literal of [fadeTo] (lines 212-217). *)
Record fade01 : Type := mkFade01 {
  fid01 : nat;
  target : num;
  timestamp : num;
  callback01 : callback_t
}.

Record world01 : Type := mkWorld01 {
  vol : num;                   (* this._media.volume *)
  media01 : jsv;               (* this._media *)
  intervalTimer : option nat;  (* this._intervalTimer *)
  live : list nat;             (* interval timers the host still runs *)
  updateInterval : option num; (* this._updateInterval, [None] if undefined *)
  fadeDuration01 : num;        (* this._fadeDuration *)
  fade01_ : option fade01;     (* this._fade *)
  calls01 : list nat;          (* fades whose callback has been invoked *)
  clock01 : nat -> num;        (* successive values of Date.now() *)
  reads01 : nat;
  next_handle : nat;           (* the handle the next setInterval returns *)
  next_id01 : nat;
  env01 : nat -> nat -> behaviour01;
  stack01 : nat
}.

Definition set_vol (v : num) (w : world01) : world01 :=
  mkWorld01 v w.(media01) w.(intervalTimer) w.(live) w.(updateInterval)
    w.(fadeDuration01) w.(fade01_) w.(calls01) w.(clock01) w.(reads01)
    w.(next_handle) w.(next_id01) w.(env01) w.(stack01).
Definition set_live (l : list nat) (w : world01) : world01 :=
  mkWorld01 w.(vol) w.(media01) w.(intervalTimer) l w.(updateInterval)
    w.(fadeDuration01) w.(fade01_) w.(calls01) w.(clock01) w.(reads01)
    w.(next_handle) w.(next_id01) w.(env01) w.(stack01).
Definition set_updateInterval (u : num) (w : world01) : world01 :=
  mkWorld01 w.(vol) w.(media01) w.(intervalTimer) w.(live) (Some u)
    w.(fadeDuration01) w.(fade01_) w.(calls01) w.(clock01) w.(reads01)
    w.(next_handle) w.(next_id01) w.(env01) w.(stack01).
Definition set_fadeDuration01 (d : num) (w : world01) : world01 :=
  mkWorld01 w.(vol) w.(media01) w.(intervalTimer) w.(live) w.(updateInterval)
    d w.(fade01_) w.(calls01) w.(clock01) w.(reads01)
    w.(next_handle) w.(next_id01) w.(env01) w.(stack01).
Definition set_fade01 (f : option fade01) (w : world01) : world01 :=
  mkWorld01 w.(vol) w.(media01) w.(intervalTimer) w.(live) w.(updateInterval)
    w.(fadeDuration01) f w.(calls01) w.(clock01) w.(reads01)
    w.(next_handle) w.(next_id01) w.(env01) w.(stack01).
Definition log_call01 (k : nat) (w : world01) : world01 :=
  mkWorld01 w.(vol) w.(media01) w.(intervalTimer) w.(live) w.(updateInterval)
    w.(fadeDuration01) w.(fade01_) (w.(calls01) ++ [k]) w.(clock01) w.(reads01)
    w.(next_handle) w.(next_id01) w.(env01) w.(stack01).

Definition date_now01 (w : world01) : num * world01 :=
  (w.(clock01) w.(reads01),
   mkWorld01 w.(vol) w.(media01) w.(intervalTimer) w.(live) w.(updateInterval)
     w.(fadeDuration01) w.(fade01_) w.(calls01) w.(clock01) (S w.(reads01))
     w.(next_handle) w.(next_id01) w.(env01) w.(stack01)).

(** [setInterval(fn, ms)]: a new live timer, whose handle is stored in
    [this._intervalTimer] by the caller (line 102). *)
Definition set_interval_timer (w : world01) : world01 :=
  mkWorld01 w.(vol) w.(media01) (Some w.(next_handle)) (w.(next_handle) :: w.(live))
    w.(updateInterval) w.(fadeDuration01) w.(fade01_) w.(calls01) w.(clock01)
    w.(reads01) (S w.(next_handle)) w.(next_id01) w.(env01) w.(stack01).

Inductive result01 : Type :=
| Ok01 (w : world01)
| Exn01 (e : error) (w : world01).

Definition res01 (r : result01) : world01 :=
  match r with Ok01 w | Exn01 _ w => w end.

(** [this._media.volume = v]: on a media element the setter of
    HTMLMediaElement (a TypeError for a non-finite value, an IndexSizeError
    outside [0,1], the volume then unchanged); on another object a plain
    property write; on [undefined], [null] or a primitive a TypeError (in
    strict mode). *)
Definition write_vol (v : num) (w : world01) : result01 :=
  match w.(media01) with
  | JMedia =>
      match v with
      | Fin x => if Rleb 0 x && Rleb x 1 then Ok01 (set_vol v w)
                 else Exn01 IndexSizeError w
      | _ => Exn01 TypeError w
      end
  | JObject => Ok01 (set_vol v w)
  | _ => Exn01 TypeError w
  end.

(** The getter [active] (line 86): [!! this._intervalTimer]. *)
Definition active01 (w : world01) : bool :=
  match w.(intervalTimer) with None => false | Some h => negb (Nat.eqb h 0) end.

(** [stop] (lines 109-116): [clearInterval(this._intervalTimer)]; the
    handle itself stays in [this._intervalTimer]. *)
Definition stop01 (w : world01) : world01 :=
  match w.(intervalTimer) with
  | None => w
  | Some h => set_live (remove Nat.eq_dec h w.(live)) w
  end.

(** [start()] without argument (lines 99-105). *)
Definition start_noarg (w : world01) : world01 :=
  set_interval_timer (if active01 w then stop01 w else w).

(** [setUpdateInterval] (lines 120-139). *)
Definition setUpdateInterval (a : arg) (w : world01) : result01 :=
  if validPositive a then
    let w1 := set_updateInterval (to_num a) w in
    Ok01 (if active01 w1 then start_noarg w1 else w1)
  else Exn01 TypeError w.

(** [start(updateInterval)] (lines 89-106). *)
Definition start01 (a : arg) (w : world01) : result01 :=
  match a with
  | AUndefined => Ok01 (start_noarg w)
  | _ => match setUpdateInterval a w with
         | Ok01 w1 => Ok01 (start_noarg w1)
         | Exn01 e w1 => Exn01 e w1
         end
  end.

(** [setFadeDuration] (lines 143-159). *)
Definition setFadeDuration01 (a : arg) (w : world01) : result01 :=
  if validPositive a then Ok01 (set_fadeDuration01 (to_num a) w)
  else Exn01 TypeError w.

(** The increment of lines 175-181. *)
Definition increment (f : fade01) (v ui remaining : num) : num :=
  js_add v (js_div (js_mul (js_sub f.(target) v) ui) remaining).

Definition interval_num (w : world01) : num :=
  match w.(updateInterval) with None => NaN | Some u => u end.

(** [fadeTo] (lines 202-221). *)
Definition fadeTo01 (targetVolume : num) (cb : callback_t) (w : world01) : result01 :=
  if validZeroToOne (ANum targetVolume) then
    let '(now, w1) := date_now01 w in
    let k := w1.(next_id01) in
    Ok01 (mkWorld01 w1.(vol) w1.(media01) w1.(intervalTimer) w1.(live)
            w1.(updateInterval) w1.(fadeDuration01)
            (Some (mkFade01 k targetVolume (js_add now w1.(fadeDuration01)) cb))
            w1.(calls01) w1.(clock01) w1.(reads01) w1.(next_handle) (S k)
            w1.(env01) w1.(stack01))
  else Exn01 TypeError w.

(** A method call made by a callback; [uv] is the nested [updateVolume]. *)
Definition act01_with (uv : world01 -> result01) (a : action01) (w : world01)
  : result01 :=
  match a with
  | A_Start x => start01 x w
  | A_Stop => Ok01 (stop01 w)
  | A_SetUpdateInterval x => setUpdateInterval x w
  | A_SetFadeDuration x => setFadeDuration01 x w
  | A_FadeTo v cb => fadeTo01 v cb w
  | A_FadeIn cb => fadeTo01 (Fin 1) cb w
  | A_FadeOut cb => fadeTo01 (Fin 0) cb w
  | A_Update => uv w
  end.

Fixpoint run_body01 (uv : world01 -> result01) (l : list (action01 * bool))
  (w : world01) : result01 :=
  match l with
  | [] => Ok01 w
  | (a, caught) :: rest =>
      match act01_with uv a w with
      | Ok01 w' => run_body01 uv rest w'
      | Exn01 e w' => if caught then run_body01 uv rest w' else Exn01 e w'
      end
  end.

Definition invoke01 (uv : world01 -> result01) (b : behaviour01) (w : world01)
  : result01 :=
  match run_body01 uv b.(body01) w with
  | Ok01 w' => if b.(throws01) then Exn01 CallbackError w' else Ok01 w'
  | Exn01 e w' => Exn01 e w'
  end.

(** [updateVolume] (lines 163-198) with [depth] levels of stack left. *)
Fixpoint updateVolume01 (depth : nat) (w : world01) : result01 :=
  match depth with
  | O => Exn01 RangeError w
  | S d =>
      match w.(fade01_) with
      | None => Ok01 w
      | Some f =>
          let '(now, w1) := date_now01 w in
          let remaining := js_sub f.(timestamp) now in
          if js_gt remaining (interval_num w1) then
            write_vol (increment f w1.(vol) (interval_num w1) remaining) w1
          else
            match write_vol f.(target) w1 with
            | Exn01 e w2 => Exn01 e w2
            | Ok01 w2 =>
                match f.(callback01) with
                | NotFunction => Ok01 (set_fade01 None w2)
                | Fn tag =>
                    match invoke01 (updateVolume01 d)
                            (w2.(env01) tag (length w2.(calls01)))
                            (log_call01 f.(fid01) w2) with
                    | Ok01 w3 => Ok01 (set_fade01 None w3)
                    | Exn01 e w3 => Exn01 e w3
                    end
                end
            end
      end
  end.

(** The host runs interval timer [h] once, if it is still live. *)
Definition tick (h : nat) (w : world01) : result01 :=
  if existsb (Nat.eqb h) w.(live) then updateVolume01 (S w.(stack01)) w else Ok01 w.

(** [updateInterval !== 0 && updateInterval !== false] (line 60). *)
Definition timer_enabled (a : arg) : bool :=
  match a with
  | AFalse => false
  | ANum n => negb (js_eq n (Fin 0))
  | AUndefined => true
  end.

(** The constructor (lines 23-82); [v0] is the media's volume, [clk] the
    host clock, [ev] the behaviour of the page's functions and [lim] the
    host's stack.  [this._fadeDuration] is undefined (held as NaN) until
    line 48 or 56 sets it. *)
Definition construct01 (mediaElement : jsv) (initialVolume fadeDuration updateInterval : arg)
  (v0 : num) (clk : nat -> num) (ev : nat -> nat -> behaviour01) (lim : nat) : result01 :=
  let w0 := mkWorld01 v0 mediaElement None [] None NaN None [] clk 0 1 0
              ev lim in
  if instanceof_media (JPrimitive (negb (truthy mediaElement))) then
    Exn01 TypeError w0
  else
    match (if validZeroToOne initialVolume then write_vol (to_num initialVolume) w0
           else Ok01 w0) with
    | Exn01 e w1 => Exn01 e w1
    | Ok01 w1 =>
        let w2 := match setFadeDuration01 fadeDuration w1 with
                  | Ok01 w => w
                  | Exn01 _ w => res01 (setFadeDuration01 (ANum (Fin 500)) w)
                  end in
        if timer_enabled updateInterval then
          let w3 := match setUpdateInterval updateInterval w2 with
                    | Ok01 w => w
                    | Exn01 _ w => res01 (setUpdateInterval (ANum (Fin 50)) w)
                    end in
          start01 AUndefined w3
        else Ok01 w2
    end.

Inductive op01 : Type :=
| Start01 (a : arg)
| Stop01
| SetUpdateInterval (a : arg)
| SetFadeDuration01 (a : arg)
| FadeTo01 (v : num) (cb : callback_t)
| Tick (h : nat).

Definition exec01 (o : op01) (w : world01) : result01 :=
  match o with
  | Start01 a => start01 a w
  | Stop01 => Ok01 (stop01 w)
  | SetUpdateInterval a => setUpdateInterval a w
  | SetFadeDuration01 a => setFadeDuration01 a w
  | FadeTo01 v cb => fadeTo01 v cb w
  | Tick h => tick h w
  end.

Fixpoint run01 (ops : list op01) (w : world01) : world01 :=
  match ops with
  | [] => w
  | o :: rest => run01 rest (res01 (exec01 o w))
  end.

(** The timer bookkeeping the v0.1 fader keeps: every live timer is the one
    in [this._intervalTimer], there is at most one, and handles are
    positive. *)
Definition timers_ok (w : world01) : Prop :=
  (forall h, In h w.(live) -> w.(intervalTimer) = Some h)
  /\ (length w.(live) <= 1)%nat
  /\ (forall h, w.(intervalTimer) = Some h -> 0 < h)%nat
  /\ (0 < w.(next_handle))%nat.

(** Concrete v0.1 worlds.  [w_running]: timer 1 live, interval 50 ms, no
    fade; [w_fading01]: the same with a fade to 1 due at time 200, read at
    time 0; [w_nointerval01]: a fade due at time 100000 without an update
    interval. *)
Definition quiet_env01 : nat -> nat -> behaviour01 := fun _ _ => mkBehaviour01 [] false.

Definition w_running : world01 :=
  mkWorld01 (Fin 1) JMedia (Some 1%nat) [1%nat] (Some (Fin 50)) (Fin 500) None []
    (fun _ => Fin 0) 0 2 0 quiet_env01 8.

Definition w_fading01 : world01 :=
  mkWorld01 (Fin 0) JMedia (Some 1%nat) [1%nat] (Some (Fin 50)) (Fin 500)
    (Some (mkFade01 0 (Fin 1) (Fin 200) (Fn 0))) [] (fun _ => Fin 0) 0 2 1 quiet_env01 8.

Definition w_nointerval01 : world01 :=
  mkWorld01 (Fin 0) JMedia None [] None (Fin 500)
    (Some (mkFade01 0 (Fin 1) (Fin 100000) (Fn 0))) [] (fun _ => Fin 0) 0 1 1 quiet_env01 8.

End V01.

(** * Proofs *)

(** ** Reasoning about real comparisons *)

Ltac rdec :=
  repeat match goal with
  | |- context [Rlt_dec ?a ?b] => destruct (Rlt_dec a b)
  | |- context [Rle_dec ?a ?b] => destruct (Rle_dec a b)
  | |- context [Req_dec_T ?a ?b] => destruct (Req_dec_T a b)
  | H : context [Rlt_dec ?a ?b] |- _ => destruct (Rlt_dec a b)
  | H : context [Rle_dec ?a ?b] |- _ => destruct (Rle_dec a b)
  | H : context [Req_dec_T ?a ?b] |- _ => destruct (Req_dec_T a b)
  end.

Lemma js_lt_fin (x y : R) : js_lt (Fin x) (Fin y) = true <-> x < y.
Proof. cbn; unfold Rltb; rdec; split; intros; try lra; discriminate. Qed.

Lemma js_lt_fin_false (x y : R) : js_lt (Fin x) (Fin y) = false <-> y <= x.
Proof. cbn; unfold Rltb; rdec; split; intros; try lra; discriminate. Qed.

(** The level of [interp_level] on a finite record. *)
Lemma interp_level_fin (id : nat) (a b t0 t1 t : R) (cb : callback_t) :
  t0 <> t1 ->
  interp_level (mkFade id (Fin a) (Fin b) (Fin t0) (Fin t1) cb) (Fin t)
  = Fin ((t - t0) / (t1 - t0) * (b - a) + a).
Proof.
  intros Hne. unfold interp_level; cbn.
  unfold Reqb; rdec; [lra|]. reflexivity.
Qed.

(** ** The volume setter *)

Lemma set_volume_ok (x : R) (w : world) :
  0 <= x <= 1 -> set_volume (Fin x) w = Ok Undefined (set_media (Fin x) w).
Proof.
  intros H. unfold set_volume, Rleb.
  destruct (Rle_dec 0 x); [|exfalso; lra].
  destruct (Rle_dec x 1); [reflexivity|exfalso; lra].
Qed.

(** The setter accepts exactly the finite values of [0,1], and leaves the
    world unchanged when it refuses one. *)
Lemma set_volume_cases (v : num) (w : world) :
  volume_ok v /\ set_volume v w = Ok Undefined (set_media v w)
  \/ ~ volume_ok v /\ exists e, set_volume v w = Exn e w.
Proof.
  destruct v as [| | |x];
    try (right; split; [intros [y [Hy _]]; discriminate|eexists; reflexivity]).
  destruct (Rle_dec 0 x), (Rle_dec x 1).
  - left. split; [exists x; split; [reflexivity|lra]|].
    apply set_volume_ok. lra.
  - right. split; [intros [y [Hy Hr]]; injection Hy as <-; lra|].
    exists IndexSizeError. unfold set_volume, Rleb.
    destruct (Rle_dec 0 x); [|exfalso; lra].
    destruct (Rle_dec x 1); [exfalso; lra|reflexivity].
  - right. split; [intros [y [Hy Hr]]; injection Hy as <-; lra|].
    exists IndexSizeError. unfold set_volume, Rleb.
    destruct (Rle_dec 0 x); [exfalso; lra|reflexivity].
  - right. split; [intros [y [Hy Hr]]; injection Hy as <-; lra|].
    exists IndexSizeError. unfold set_volume, Rleb.
    destruct (Rle_dec 0 x); [exfalso; lra|reflexivity].
Qed.

(** [media.volume = this.volumeScaler(l)] either stores the scaler's value,
    which the setter accepts, or throws and changes nothing. *)
Lemma write_scaled_cases (l : num) (w : world) :
  (exists v, w.(volumeScaler) l = Some v /\ volume_ok v
     /\ write_scaled l w = Ok Undefined (set_media v w))
  \/ (~ exists v, w.(volumeScaler) l = Some v /\ volume_ok v)
     /\ exists e, write_scaled l w = Exn e w.
Proof.
  unfold write_scaled. destruct (volumeScaler w l) as [v|].
  - destruct (set_volume_cases v w) as [[Hv E]|[Hv [e E]]].
    + left. exists v. split; [reflexivity|split; assumption].
    + right. split; [intros [v' [Hv' Hok]]; injection Hv' as <-; contradiction|].
      exists e. exact E.
  - right. split; [intros [v' [Hv' _]]; discriminate|]. eexists; reflexivity.
Qed.

Lemma write_scaled_ok (l : num) (x : R) (w : world) :
  w.(volumeScaler) l = Some (Fin x) -> 0 <= x <= 1 ->
  write_scaled l w = Ok Undefined (set_media (Fin x) w).
Proof. intros H Hx. unfold write_scaled. rewrite H. apply set_volume_ok, Hx. Qed.

(** ** Update steps *)

(** A step before the fade's end time writes the interpolated level and
    registers the next frame. *)
Lemma updateVolume_before_end (n : nat) (w : world) (f : fade_t) :
  w.(active) = true -> w.(fade) = Some f ->
  js_lt (w.(clock) w.(reads)) f.(time_end) = true ->
  updateVolume (S n) w
  = match write_scaled (interp_level f (w.(clock) w.(reads))) (snd (date_now w)) with
    | Ok _ w2 => Ok This (set_pending (S w2.(pending)) w2)
    | Exn e w2 => Exn e w2
    end.
Proof. intros Ha Hf Ht. cbn [updateVolume]. rewrite Ha, Hf. cbn [date_now fst snd]. rewrite Ht. reflexivity. Qed.

(** A step from the fade's end time on writes the end level; the callback
    runs only once that write has succeeded. *)
Lemma updateVolume_at_end (n : nat) (w : world) (f : fade_t) :
  w.(active) = true -> w.(fade) = Some f ->
  js_lt (w.(clock) w.(reads)) f.(time_end) = false ->
  updateVolume (S n) w
  = match write_scaled f.(volume_end) (snd (date_now w)) with
    | Exn e w2 => Exn e w2
    | Ok _ w2 =>
        let w3 := set_active false w2 in
        match f.(callback) with
        | NotFunction => Ok This (set_fade None w3)
        | Fn tag =>
            match invoke (updateVolume n) (w3.(env) tag (length w3.(calls)))
                         (log_call f.(fid) w3) with
            | Ok _ w4 => Ok This (set_fade None w4)
            | Exn e w4 => Exn e w4
            end
        end
    end.
Proof. intros Ha Hf Ht. cbn [updateVolume]. rewrite Ha, Hf. cbn [date_now fst snd]. rewrite Ht. reflexivity. Qed.

Lemma updateVolume_inactive (n : nat) (w : world) :
  w.(active) = false -> updateVolume (S n) w = Ok This w.
Proof. intros Ha. cbn [updateVolume]. rewrite Ha. reflexivity. Qed.

Lemma updateVolume_no_fade (n : nat) (w : world) :
  w.(fade) = None -> updateVolume (S n) w = Ok This w.
Proof. intros Hf. cbn [updateVolume]. rewrite Hf. destruct (active w); reflexivity. Qed.

Lemma updateVolume_final (n : nat) (w : world) (f : fade_t) (s : R) :
  w.(active) = true -> w.(fade) = Some f ->
  js_lt (w.(clock) w.(reads)) f.(time_end) = false ->
  w.(volumeScaler) f.(volume_end) = Some (Fin s) -> 0 <= s <= 1 ->
  updateVolume (S n) w
  = match f.(callback) with
    | NotFunction => Ok This (set_fade None (after_final_write s w))
    | Fn tag =>
        match invoke (updateVolume n) (w.(env) tag (length w.(calls)))
                     (log_call f.(fid) (after_final_write s w)) with
        | Ok _ w4 => Ok This (set_fade None w4)
        | Exn e w4 => Exn e w4
        end
    end.
Proof.
  intros Ha Hf Ht Hs Hx. rewrite (updateVolume_at_end n w f Ha Hf Ht).
  rewrite (write_scaled_ok _ s); [reflexivity| |exact Hx]. exact Hs.
Qed.

Lemma invoke_returns_plain (uv : world -> result) (w : world) :
  invoke uv returns_plain w = Ok Undefined w.
Proof. reflexivity. Qed.

Lemma invoke_throws_plain (uv : world -> result) (w : world) :
  invoke uv throws_plain w = Exn CallbackError w.
Proof. reflexivity. Qed.

(** ** The callback log only grows *)

Lemma calls_prefix_refl (w w' : world) : w'.(calls) = w.(calls) -> calls_prefix w w'.
Proof. intros H. exists []. rewrite app_nil_r. exact H. Qed.

Lemma calls_prefix_trans (w1 w2 w3 : world) :
  calls_prefix w1 w2 -> calls_prefix w2 w3 -> calls_prefix w1 w3.
Proof. intros [l1 H1] [l2 H2]. exists (l1 ++ l2). rewrite H2, H1, app_assoc. reflexivity. Qed.

Section CallsPrefix.

Variable uv : world -> result.
Hypothesis Huv : forall w, calls_prefix w (res_world (uv w)).

Lemma start_with_prefix (w : world) : calls_prefix w (res_world (start_with uv w)).
Proof.
  unfold start_with. pose proof (Huv (set_active true w)) as H.
  destruct (uv (set_active true w)); exact H.
Qed.

Lemma fadeTo_with_prefix (v : num) (cb : callback_t) (w : world) :
  calls_prefix w (res_world (fadeTo_with uv v cb w)).
Proof.
  unfold fadeTo_with. destruct (validateVolumeLevel v); [|apply calls_prefix_refl; reflexivity].
  unfold new_fade; cbn [date_now alloc fst snd].
  match goal with |- context [start_with uv ?w0] =>
    pose proof (start_with_prefix w0) as H; destruct (start_with uv w0) end;
  exact H.
Qed.

Lemma act_with_prefix (a : action) (w : world) : calls_prefix w (res_world (act_with uv a w)).
Proof.
  destruct a as [| |d|v cb|cb|cb|]; cbn [act_with].
  - apply start_with_prefix.
  - apply calls_prefix_refl; reflexivity.
  - unfold setFadeDuration. destruct (_ && _); apply calls_prefix_refl; reflexivity.
  - apply fadeTo_with_prefix.
  - unfold fadeIn_with. pose proof (fadeTo_with_prefix (Fin 1) cb w) as H.
    destruct (fadeTo_with uv (Fin 1) cb w); exact H.
  - unfold fadeOut_with. pose proof (fadeTo_with_prefix (Fin 0) cb w) as H.
    destruct (fadeTo_with uv (Fin 0) cb w); exact H.
  - apply Huv.
Qed.

Lemma run_body_prefix (l : list (action * bool)) :
  forall w, calls_prefix w (res_world (run_body uv l w)).
Proof.
  induction l as [|[a caught] l IH]; intros w; cbn [run_body].
  - apply calls_prefix_refl; reflexivity.
  - pose proof (act_with_prefix a w) as H.
    destruct (act_with uv a w) as [v w'|e w']; cbn [res_world] in H.
    + exact (calls_prefix_trans _ _ _ H (IH w')).
    + destruct caught; [exact (calls_prefix_trans _ _ _ H (IH w'))|exact H].
Qed.

Lemma invoke_prefix (b : behaviour) (w : world) : calls_prefix w (res_world (invoke uv b w)).
Proof.
  unfold invoke. pose proof (run_body_prefix b.(body) w) as H.
  destruct (run_body uv (body b) w); [destruct (throws b)|]; exact H.
Qed.

End CallsPrefix.

Lemma updateVolume_prefix (n : nat) : forall w, calls_prefix w (res_world (updateVolume n w)).
Proof.
  induction n as [|n IH]; intros w; [apply calls_prefix_refl; reflexivity|].
  cbn [updateVolume]. destruct (active w); [|apply calls_prefix_refl; reflexivity].
  destruct (fade w) as [f|]; [|apply calls_prefix_refl; reflexivity].
  cbn [date_now fst snd]. destruct (js_lt _ _).
  - unfold write_scaled. destruct (volumeScaler _ _); [|apply calls_prefix_refl; reflexivity].
    unfold set_volume. destruct n0 as [| | |x]; try (apply calls_prefix_refl; reflexivity).
    destruct (_ && _); apply calls_prefix_refl; reflexivity.
  - unfold write_scaled. destruct (volumeScaler _ _) as [v|]; [|apply calls_prefix_refl; reflexivity].
    destruct (set_volume v _) as [u w2|e w2] eqn:Ev;
      [|apply calls_prefix_refl; unfold set_volume in Ev;
        destruct v as [| | |x]; try (injection Ev as _ <-; reflexivity);
        destruct (_ && _); [discriminate|injection Ev as _ <-; reflexivity]].
    assert (Hw2 : w2.(calls) = w.(calls)).
    { unfold set_volume in Ev. destruct v as [| | |x]; try discriminate.
      destruct (_ && _); [injection Ev as _ <-; reflexivity|discriminate]. }
    destruct (callback f) as [|tag]; [apply calls_prefix_refl; exact Hw2|].
    match goal with |- context [invoke (updateVolume n) ?b ?w0] =>
      pose proof (invoke_prefix (updateVolume n) IH b w0) as H;
      destruct (invoke (updateVolume n) b w0) end;
    (eapply calls_prefix_trans; [|exact H]); exists [fid f]; cbn; rewrite Hw2; reflexivity.
Qed.

(** ** Concrete values *)

Lemma validate_one : validateVolumeLevel (Fin 1) = true.
Proof. unfold validateVolumeLevel; cbn; unfold Rleb; rdec; try reflexivity; lra. Qed.

Lemma validate_zero : validateVolumeLevel (Fin 0) = true.
Proof. unfold validateVolumeLevel; cbn; unfold Rleb; rdec; try reflexivity; lra. Qed.

(** ** C1, C2: the completing update step *)


Lemma exponentialScaler_one : exponentialScaler (Fin 1) = Fin 1.
Proof.
  unfold exponentialScaler; cbn. unfold Reqb. destruct (Req_dec_T 1 0); [lra|].
  replace ((1 + - (1)) * 3) with 0 by ring. rewrite Rpower_O; [reflexivity|lra].
Qed.


Lemma w_chaining_step :
  exists w', updateVolume (depth w_chaining) w_chaining = Ok This w'
    /\ w'.(active) = true /\ w'.(pending) = 1%nat /\ w'.(fade) = None
    /\ w'.(calls) = [0%nat] /\ w'.(media) = Fin 1.
Proof.
  change (depth w_chaining) with (S 8).
  rewrite (updateVolume_final 8 w_chaining chaining_fade 1 eq_refl eq_refl
             ltac:(apply js_lt_fin_false; lra) eq_refl ltac:(lra)).
  cbn [callback chaining_fade fid]. unfold invoke. cbn [env w_chaining body run_body act_with].
  unfold fadeOut_with, fadeTo_with. rewrite validate_zero. cbn [new_fade date_now alloc fst snd].
  unfold start_with. 
  erewrite updateVolume_before_end; [|reflexivity|reflexivity|].
  2: { cbn. unfold Rltb. rdec; [reflexivity|exfalso; lra]. }
  cbn. rewrite interp_level_fin by lra.
  rewrite set_volume_ok
    by (match goal with |- 0 <= ?e <= 1 => replace e with 1 by (field; lra) end; lra).
  cbn. eexists; repeat split. cbn. f_equal. field.
Qed.

Lemma w_throwing_step :
  updateVolume (depth w_throwing) w_throwing
  = Exn CallbackError (log_call 0 (after_final_write 1 w_throwing)).
Proof.
  change (depth w_throwing) with (S 8).
  rewrite (updateVolume_final 8 w_throwing throwing_fade 1 eq_refl eq_refl
             ltac:(apply js_lt_fin_false; lra) eq_refl ltac:(lra)).
  reflexivity.
Qed.

Lemma w_double_step :
  updateVolume (depth w_double) w_double = Exn IndexSizeError (snd (date_now w_double)).
Proof.
  change (depth w_double) with (S 8).
  rewrite (updateVolume_at_end 8 w_double _ eq_refl eq_refl
             ltac:(apply js_lt_fin_false; lra)).
  cbn. unfold Rleb. rdec; try (exfalso; lra). reflexivity.
Qed.





Lemma set_volume_above (x : R) (w : world) : 1 < x -> set_volume (Fin x) w = Exn IndexSizeError w.
Proof.
  intros H. unfold set_volume, Rleb.
  destruct (Rle_dec 0 x); [|reflexivity]. destruct (Rle_dec x 1); [exfalso; lra|reflexivity].
Qed.

(** [exponentialScaler] on a finite, non-zero level. *)
Lemma exponentialScaler_fin (l : R) :
  l <> 0 -> exponentialScaler (Fin l) = Fin (Rpower 10 ((l - 1) * 3)).
Proof. intros Hl. unfold exponentialScaler; cbn; unfold Reqb; rdec; easy. Qed.

(** The default scaler maps every level at most 1 into [0,1]. *)
Lemma exponentialScaler_unit (l : R) :
  l <= 1 -> exists v, exponentialScaler (Fin l) = Fin v /\ 0 <= v <= 1.
Proof.
  intros Hl. destruct (Req_dec_T l 0) as [->|Hne].
  - exists 0. unfold exponentialScaler; cbn; unfold Reqb; rdec; [|lra].
    split; [reflexivity|lra].
  - exists (Rpower 10 ((l - 1) * 3)). split; [now apply exponentialScaler_fin|].
    split.
    + unfold Rpower. left. apply exp_pos.
    + destruct (Req_dec_T l 1) as [->|Hl1].
      * replace ((1 - 1) * 3) with 0 by ring. rewrite Rpower_O; lra.
      * assert (Hlt : Rpower 10 ((l - 1) * 3) < Rpower 10 0)
          by (apply Rpower_lt; lra).
        rewrite Rpower_O in Hlt; lra.
Qed.

(** On a finite record with [t0 < t1], the applied level at any time in
    [[t0, t1]] is the linear interpolation, reaching [b] exactly at [t1]. *)
Lemma applied_level_fin (id : nat) (a b t0 t1 t : R) (cb : callback_t) :
  t0 < t1 -> t <= t1 ->
  applied_level (mkFade id (Fin a) (Fin b) (Fin t0) (Fin t1) cb) (Fin t)
  = Fin ((t - t0) / (t1 - t0) * (b - a) + a).
Proof.
  intros H01 Ht1. unfold applied_level; cbn [time_end volume_end].
  destruct (js_lt (Fin t) (Fin t1)) eqn:E.
  - apply interp_level_fin. lra.
  - apply js_lt_fin_false in E. assert (t = t1) as -> by lra.
    f_equal. field. lra.
Qed.

(** The interpolated level lies between the two end levels. *)
Lemma lerp_between (a b t0 t1 t : R) :
  t0 < t1 -> t0 <= t <= t1 ->
  Rmin a b <= (t - t0) / (t1 - t0) * (b - a) + a <= Rmax a b.
Proof.
  intros H01 Ht.
  set (p := (t - t0) / (t1 - t0)).
  assert (Hp : p * (t1 - t0) = t - t0) by (unfold p; field; lra).
  assert (0 <= p <= 1) by nra.
  unfold Rmin, Rmax. destruct (Rle_dec a b); nra.
Qed.

(** The level an update step passes to the scaler, from time [t0] on, is
    at most 1 when both end levels are. *)
Lemma applied_level_le_1 (id : nat) (a b t0 t1 t : R) (cb : callback_t) :
  a <= 1 -> b <= 1 -> t0 < t1 -> t0 <= t ->
  exists l, applied_level (mkFade id (Fin a) (Fin b) (Fin t0) (Fin t1) cb) (Fin t) = Fin l
    /\ l <= 1.
Proof.
  intros Ha Hb H01 Ht0. destruct (Rle_dec t t1) as [Ht1|Ht1].
  - rewrite applied_level_fin by lra. eexists; split; [reflexivity|].
    pose proof (lerp_between a b t0 t1 t H01 (conj Ht0 Ht1)) as [_ Hmax].
    unfold Rmax in Hmax; destruct (Rle_dec a b); lra.
  - unfold applied_level; cbn [time_end volume_end].
    replace (js_lt (Fin t) (Fin t1)) with false
      by (symmetry; apply js_lt_fin_false; lra).
    eexists; split; [reflexivity|exact Hb].
Qed.

(** Claim C4 (amended).  Take an update step on an active controller whose
    fade has finite start and end levels in [0,1] and finite times
    [t0 < t1], with the default exponential scaler, at a time [t] not
    before [t0].  The value the step passes to the media setter (the
    scaled applied level) lies in [0,1], the write succeeds, and a step
    before [t1] ends with that volume and one more frame registered. *)
Theorem updateVolume_default_scaler_range (n : nat) (w : world) (id : nat)
  (a b t0 t1 t : R) (cb : callback_t)
  (Hact : w.(active) = true)
  (Hfade : w.(fade) = Some (mkFade id (Fin a) (Fin b) (Fin t0) (Fin t1) cb))
  (Ha : 0 <= a <= 1) (Hb : 0 <= b <= 1) (H01 : t0 < t1)
  (Hsc : w.(volumeScaler) = default_scaler)
  (Hnow : w.(clock) w.(reads) = Fin t) (Ht0 : t0 <= t) :
  exists v, 0 <= v <= 1
    /\ w.(volumeScaler) (applied_level (mkFade id (Fin a) (Fin b) (Fin t0) (Fin t1) cb) (Fin t))
       = Some (Fin v)
    /\ write_scaled (applied_level (mkFade id (Fin a) (Fin b) (Fin t0) (Fin t1) cb) (Fin t))
         (snd (date_now w))
       = Ok Undefined (set_media (Fin v) (snd (date_now w)))
    /\ (t < t1 -> updateVolume (S n) w
                  = Ok This (set_pending (S w.(pending)) (set_media (Fin v) (snd (date_now w))))).
Proof.
  destruct (applied_level_le_1 id a b t0 t1 t cb (proj2 Ha) (proj2 Hb) H01 Ht0) as [l [Hl Hl1]].
  destruct (exponentialScaler_unit l Hl1) as [v [Hv Hr]].
  assert (Hs : w.(volumeScaler) (applied_level (mkFade id (Fin a) (Fin b) (Fin t0) (Fin t1) cb) (Fin t))
               = Some (Fin v))
    by (rewrite Hsc, Hl; unfold default_scaler; rewrite Hv; reflexivity).
  exists v. split; [exact Hr|]. split; [exact Hs|].
  assert (Hw : write_scaled (applied_level (mkFade id (Fin a) (Fin b) (Fin t0) (Fin t1) cb) (Fin t))
                 (snd (date_now w)) = Ok Undefined (set_media (Fin v) (snd (date_now w))))
    by (apply write_scaled_ok; [exact Hs|exact Hr]).
  split; [exact Hw|].
  intros Ht1. assert (Hlt : js_lt (Fin t) (Fin t1) = true) by (apply js_lt_fin; exact Ht1).
  rewrite (updateVolume_before_end n w _ Hact Hfade) by (rewrite Hnow; exact Hlt).
  unfold applied_level in Hw. cbn [time_end] in Hw. rewrite Hlt in Hw.
  rewrite Hnow, Hw. reflexivity.
Qed.

Lemma updateVolume_default_scaler_range_witness :
  exists v, 0 <= v <= 1
    /\ updateVolume 9 (w_at 250)
       = Ok This (set_pending 1 (set_media (Fin v) (snd (date_now (w_at 250))))).
Proof.
  destruct (updateVolume_default_scaler_range 8 (w_at 250) 0 0 1 0 500 250 (Fn 0)
              eq_refl eq_refl ltac:(lra) ltac:(lra) ltac:(lra) eq_refl eq_refl ltac:(lra))
    as [v [Hr [_ [_ Hstep]]]].
  exists v. split; [exact Hr|]. exact (Hstep ltac:(lra)).
Defined.

(** Claim C4 (counterexample).  With the clock set back before the fade's
    start time, a fade from 1 to 0 computes the level 2, and the default
    scaler maps it to [10^3 > 1]: the step does not clamp its progress.
    The media element refuses the value: the step throws an
    IndexSizeError, registers no frame and leaves the controller active on
    the same record, so the fade stalls. *)
Lemma clock_back_volume_cex :
  (exists v, w_clock_back.(volumeScaler)
               (applied_level (mkFade 0 (Fin 1) (Fin 0) (Fin 10) (Fin 20) NotFunction) (Fin 0))
             = Some (Fin v) /\ 1 < v)
  /\ updateVolume (depth w_clock_back) w_clock_back
     = Exn IndexSizeError (snd (date_now w_clock_back))
  /\ (snd (date_now w_clock_back)).(active) = true
  /\ (snd (date_now w_clock_back)).(fade) = w_clock_back.(fade)
  /\ (snd (date_now w_clock_back)).(pending) = 0%nat
  /\ (snd (date_now w_clock_back)).(media) = Fin 0.
Proof.
  assert (Hl : interp_level (mkFade 0 (Fin 1) (Fin 0) (Fin 10) (Fin 20) NotFunction) (Fin 0)
               = Fin 2)
    by (rewrite interp_level_fin by lra; f_equal; field).
  assert (Hlt : js_lt (Fin 0) (Fin 20) = true) by (apply js_lt_fin; lra).
  assert (Hv : exponentialScaler (Fin 2) = Fin (Rpower 10 ((2 - 1) * 3)))
    by (apply exponentialScaler_fin; lra).
  assert (Hbig : 1 < Rpower 10 ((2 - 1) * 3)).
  { assert (H : Rpower 10 0 < Rpower 10 ((2 - 1) * 3)) by (apply Rpower_lt; lra).
    rewrite Rpower_O in H; lra. }
  split; [|split; [|repeat split]].
  - exists (Rpower 10 ((2 - 1) * 3)). split; [|exact Hbig].
    unfold applied_level; cbn [time_end]. rewrite Hlt, Hl. cbn. unfold default_scaler.
    rewrite Hv. reflexivity.
  - change (depth w_clock_back) with (S 8).
    rewrite (updateVolume_before_end 8 w_clock_back _ eq_refl eq_refl Hlt).
    cbn [clock reads w_clock_back]. rewrite Hl. unfold write_scaled.
    cbn [volumeScaler date_now snd w_clock_back]. unfold default_scaler. rewrite Hv.
    rewrite set_volume_above by exact Hbig. reflexivity.
Qed.

(** ** C5: monotone fade levels *)

(** Claim C5.  For a finite record from [a] to [b] over [t0 < t1], the
    pre-scale levels of two steps at times [t0 <= s <= u <= t1] are ordered
    as the fade's direction: non-decreasing when [a < b], non-increasing
    when [a > b]. *)
Theorem applied_level_monotone (id : nat) (a b t0 t1 s u : R) (cb : callback_t)
  (H01 : t0 < t1) (Hs : t0 <= s) (Hsu : s <= u) (Hu : u <= t1) :
  exists x y,
    applied_level (mkFade id (Fin a) (Fin b) (Fin t0) (Fin t1) cb) (Fin s) = Fin x
    /\ applied_level (mkFade id (Fin a) (Fin b) (Fin t0) (Fin t1) cb) (Fin u) = Fin y
    /\ (a < b -> x <= y) /\ (b < a -> y <= x).
Proof.
  rewrite !applied_level_fin by lra.
  do 2 eexists. split; [reflexivity|]. split; [reflexivity|].
  set (q := (u - s) / (t1 - t0)).
  assert (Hq : q * (t1 - t0) = u - s) by (unfold q; field; lra).
  assert (0 <= q) by nra.
  assert (Hd : (u - t0) / (t1 - t0) * (b - a) + a
               - ((s - t0) / (t1 - t0) * (b - a) + a) = q * (b - a))
    by (unfold q; field; lra).
  split; intros; nra.
Qed.

Lemma applied_level_monotone_witness :
  exists x y,
    applied_level (mkFade 0 (Fin 0) (Fin 1) (Fin 0) (Fin 500) NotFunction) (Fin 100) = Fin x
    /\ applied_level (mkFade 0 (Fin 0) (Fin 1) (Fin 0) (Fin 500) NotFunction) (Fin 200) = Fin y
    /\ (0 < 1 -> x <= y) /\ (1 < 0 -> y <= x).
Proof. apply (applied_level_monotone 0 0 1 0 500 100 200 NotFunction); lra. Defined.

(** ** C6: the active flag and the frame loop *)




(** ** C7: fadeTo rejects levels outside [0,1] *)

Lemma validateVolumeLevel_outside (v : num) :
  outside_unit v -> validateVolumeLevel v = false.
Proof.
  intros [->|[->|[->|[x [-> Hx]]]]]; try reflexivity.
  unfold validateVolumeLevel; cbn; unfold Rleb; rdec; try reflexivity; lra.
Qed.

(** Claim C7.  For a target outside [0,1] (NaN and the infinities included)
    [fadeTo] throws a TypeError and leaves the whole world as it was: fade
    record, active flag, media volume, scheduler, clock. *)
Theorem fadeTo_rejects_outside (v : num) (cb : callback_t) (w : world)
  (Hv : outside_unit v) :
  fadeTo v cb w = Exn TypeError w.
Proof.
  unfold fadeTo, fadeTo_with. rewrite (validateVolumeLevel_outside v Hv). reflexivity.
Qed.

Lemma fadeTo_rejects_outside_witness :
  outside_unit (Fin (3/2)) /\ fadeTo (Fin (3/2)) NotFunction w_fresh = Exn TypeError w_fresh.
Proof.
  assert (H : outside_unit (Fin (3/2))) by (right; right; right; exists (3/2); split; [reflexivity|lra]).
  split; [exact H|]. apply (fadeTo_rejects_outside (Fin (3/2)) NotFunction w_fresh H).
Defined.

(** ** C8: setFadeDuration *)

(** Claim C8 (counterexample).  [setFadeDuration(Infinity)] succeeds and
    stores Infinity. *)
Lemma setFadeDuration_infinity_cex :
  setFadeDuration PosInf w_fresh = Ok This (set_fadeDuration PosInf w_fresh)
  /\ (set_fadeDuration PosInf w_fresh).(fadeDuration) = PosInf.
Proof. split; reflexivity. Qed.

(** Claim C8 (amended).  For a numeric argument [d], [setFadeDuration(d)]
    succeeds exactly when [d] is not NaN and [d > 0], i.e. [d] is a positive
    finite number or +Infinity; it then stores [d] and changes nothing else
    (in particular not the in-flight fade record), and otherwise throws a
    TypeError leaving the world unchanged. *)
Theorem setFadeDuration_spec (d : num) (w : world) :
  (duration_accepted d /\ setFadeDuration d w = Ok This (set_fadeDuration d w)
   \/ ~ duration_accepted d /\ setFadeDuration d w = Exn TypeError w)
  /\ (set_fadeDuration d w).(fadeDuration) = d
  /\ (set_fadeDuration d w).(fade) = w.(fade)
  /\ (set_fadeDuration d w).(active) = w.(active)
  /\ (set_fadeDuration d w).(media) = w.(media).
Proof.
  split; [|repeat split].
  unfold setFadeDuration, duration_accepted.
  destruct d as [| | |x]; cbn.
  - right. split; [|reflexivity]. intros [H|[x [H _]]]; discriminate.
  - left. split; [left; reflexivity|reflexivity].
  - right. split; [|reflexivity]. intros [H|[x [H _]]]; discriminate.
  - unfold Rltb; rdec.
    + left. split; [right; exists x; split; [reflexivity|lra]|reflexivity].
    + right. split; [|reflexivity]. intros [H|[y [H Hy]]]; [discriminate|].
      injection H as ->. lra.
Qed.

(** ** C9: fadeIn and fadeOut *)

(** Claim C9 (code defect).  [fadeIn] and [fadeOut] leave the world exactly
    as [fadeTo(1, cb)] and [fadeTo(0, cb)] do, but where [fadeTo] returns the
    instance they return [undefined]. *)
Theorem fadeIn_fadeOut_return_undefined (cb : callback_t) (w : world) :
  res_world (fadeIn cb w) = res_world (fadeTo (Fin 1) cb w)
  /\ res_world (fadeOut cb w) = res_world (fadeTo (Fin 0) cb w)
  /\ (forall w', fadeTo (Fin 1) cb w = Ok This w' -> fadeIn cb w = Ok Undefined w')
  /\ (forall w', fadeTo (Fin 0) cb w = Ok This w' -> fadeOut cb w = Ok Undefined w').
Proof.
  unfold fadeIn, fadeOut, fadeIn_with, fadeOut_with, fadeTo.
  repeat split;
    [destruct (fadeTo_with _ (Fin 1) cb w)|destruct (fadeTo_with _ (Fin 0) cb w)| |];
    try reflexivity; intros w' H; rewrite H; reflexivity.
Qed.

(** ** C10: the start level of a new fade *)

(** Claim C10.  A [fadeTo] call that passes validation installs a record
    whose start level is the media volume read at the call, unchanged by the
    scaler, and whose end level is the target, and then runs [start()]. *)
Theorem fadeTo_start_level (v : num) (cb : callback_t) (w : world)
  (Hv : validateVolumeLevel v = true) :
  exists f w1,
    res_world (fadeTo v cb w) = res_world (start (set_fade (Some f) w1))
    /\ f.(volume_start) = w.(media) /\ f.(volume_end) = v /\ f.(callback) = cb
    /\ w1.(media) = w.(media) /\ w1.(volumeScaler) = w.(volumeScaler).
Proof.
  unfold fadeTo, fadeTo_with. rewrite Hv.
  destruct (new_fade (media w) v cb w) as [f w1] eqn:Hn.
  exists f, w1. unfold new_fade in Hn; cbn in Hn. injection Hn as <- <-.
  repeat split. unfold start. cbn [depth stack_limit set_fade].
  destruct (start_with _ _); reflexivity.
Qed.

Lemma fadeTo_start_level_witness :
  validateVolumeLevel (Fin (1/2)) = true
  /\ exists f w1,
    res_world (fadeTo (Fin (1/2)) NotFunction w_fresh) = res_world (start (set_fade (Some f) w1))
    /\ f.(volume_start) = w_fresh.(media) /\ f.(volume_end) = Fin (1/2)
    /\ f.(callback) = NotFunction
    /\ w1.(media) = w_fresh.(media) /\ w1.(volumeScaler) = w_fresh.(volumeScaler).
Proof.
  assert (H : validateVolumeLevel (Fin (1/2)) = true)
    by (unfold validateVolumeLevel; cbn; unfold Rleb; rdec; try reflexivity; lra).
  split; [exact H|]. apply (fadeTo_start_level (Fin (1/2)) NotFunction w_fresh H).
Defined.

(** ** C3: a superseded fade's callback never fires *)

Lemma calls_extend_refl (k : nat) (w w' : world) :
  w'.(calls) = w.(calls) -> calls_extend_without k w w'.
Proof. intros H. exists []. rewrite app_nil_r. split; [exact H|intros []]. Qed.

Lemma calls_extend_trans (k : nat) (w1 w2 w3 : world) :
  calls_extend_without k w1 w2 -> calls_extend_without k w2 w3 ->
  calls_extend_without k w1 w3.
Proof.
  intros [l1 [H1 N1]] [l2 [H2 N2]]. exists (l1 ++ l2).
  rewrite H2, H1, app_assoc. split; [reflexivity|].
  intros Hin. apply in_app_or in Hin as [Hin|Hin]; contradiction.
Qed.

Create HintDb fader.
#[local] Hint Resolve calls_extend_refl calls_extend_trans : fader.

Lemma keeps_fresh_same (k : nat) (w w' : world) (r : result) :
  fresh_for k w' -> w'.(calls) = w.(calls) -> res_world r = w' -> keeps_fresh k w r.
Proof. intros H Hc Hr. unfold keeps_fresh. rewrite Hr. split; [exact H|apply calls_extend_refl, Hc]. Qed.

Lemma keeps_fresh_trans (k : nat) (w w' : world) (r : result) :
  calls_extend_without k w w' -> keeps_fresh k w' r -> keeps_fresh k w r.
Proof. intros H1 [H2 H3]. split; [exact H2|eauto with fader]. Qed.

(** Writing the media volume keeps [k] fresh. *)
Lemma write_scaled_fresh (k : nat) (l : num) (w : world) :
  fresh_for k w -> keeps_fresh k w (write_scaled l w)
  /\ forall u w', write_scaled l w = Ok u w' -> fresh_for k w' /\ w'.(calls) = w.(calls)
                  /\ w'.(fade) = w.(fade) /\ w'.(next_id) = w.(next_id).
Proof.
  intros [Hlt Hf].
  destruct (write_scaled_cases l w) as [[v [_ [_ E]]]|[_ [e E]]]; rewrite E.
  - split; [apply (keeps_fresh_same k w (set_media v w)); try reflexivity; split; assumption|].
    intros u w' H. injection H as _ <-. repeat split; assumption.
  - split; [apply (keeps_fresh_same k w w); try reflexivity; split; assumption|].
    intros u w' H. discriminate.
Qed.

Section Fresh.

Variable k : nat.
Variable uv : world -> result.
Hypothesis Huv : forall w, fresh_for k w -> keeps_fresh k w (uv w).

Lemma start_with_fresh (w : world) : fresh_for k w -> keeps_fresh k w (start_with uv w).
Proof.
  intros Hw. unfold start_with.
  destruct (Huv (set_active true w) Hw) as [H1 H2].
  destruct (uv (set_active true w)); split; assumption.
Qed.

(** A successful [fadeTo] installs a record with a new identity, so an
    identity allocated before the call stays fresh, whatever the previous
    fade was. *)
Lemma fadeTo_with_fresh (v : num) (cb : callback_t) (w : world) :
  fresh_for k w -> keeps_fresh k w (fadeTo_with uv v cb w).
Proof.
  intros Hw. unfold fadeTo_with. destruct (validateVolumeLevel v);
    [|apply (keeps_fresh_same k w w); try reflexivity; exact Hw].
  destruct (new_fade (media w) v cb w) as [f w1] eqn:Hn.
  unfold new_fade in Hn; cbn in Hn. injection Hn as Hf Hw1.
  assert (H0 : fresh_for k (set_fade (Some f) w1)).
  { destruct Hw as [Hlt _]. subst. split; cbn; [lia|]. intros g Hg. injection Hg as <-. cbn. lia. }
  assert (H3 : calls_extend_without k w (set_fade (Some f) w1))
    by (apply calls_extend_refl; subst; reflexivity).
  destruct (start_with_fresh _ H0) as [H1 H2].
  destruct (start_with uv (set_fade (Some f) w1)); cbn [res_world] in *;
    split; eauto with fader.
Qed.

Lemma act_with_fresh (a : action) (w : world) :
  fresh_for k w -> keeps_fresh k w (act_with uv a w).
Proof.
  intros Hw. destruct a as [| |d|v cb|cb|cb|]; cbn [act_with].
  - apply start_with_fresh, Hw.
  - apply (keeps_fresh_same k w (set_active false w)); try reflexivity. exact Hw.
  - unfold setFadeDuration. destruct (_ && _).
    + apply (keeps_fresh_same k w (set_fadeDuration d w)); try reflexivity. exact Hw.
    + apply (keeps_fresh_same k w w); try reflexivity. exact Hw.
  - apply fadeTo_with_fresh, Hw.
  - unfold fadeIn_with. destruct (fadeTo_with_fresh (Fin 1) cb w Hw) as [H1 H2].
    destruct (fadeTo_with uv (Fin 1) cb w); split; assumption.
  - unfold fadeOut_with. destruct (fadeTo_with_fresh (Fin 0) cb w Hw) as [H1 H2].
    destruct (fadeTo_with uv (Fin 0) cb w); split; assumption.
  - apply Huv, Hw.
Qed.

Lemma run_body_fresh (l : list (action * bool)) :
  forall w, fresh_for k w -> keeps_fresh k w (run_body uv l w).
Proof.
  induction l as [|[a caught] l IH]; intros w Hw; cbn [run_body].
  - apply (keeps_fresh_same k w w); try reflexivity. exact Hw.
  - destruct (act_with_fresh a w Hw) as [H1 H2].
    destruct (act_with uv a w) as [v w'|e w']; cbn [res_world] in H1, H2.
    + exact (keeps_fresh_trans k w w' _ H2 (IH w' H1)).
    + destruct caught; [exact (keeps_fresh_trans k w w' _ H2 (IH w' H1))|split; assumption].
Qed.

Lemma invoke_fresh (b : behaviour) (w : world) :
  fresh_for k w -> keeps_fresh k w (invoke uv b w).
Proof.
  intros Hw. unfold invoke. destruct (run_body_fresh (body b) w Hw) as [H1 H2].
  destruct (run_body uv (body b) w); [destruct (throws b)|]; split; assumption.
Qed.

End Fresh.

(** An update step only invokes the current fade's callback (and whatever
    that callback's own calls invoke), keeps the allocator, and leaves no
    record but the current one or new ones. *)
Lemma updateVolume_fresh (k n : nat) :
  forall w, fresh_for k w -> keeps_fresh k w (updateVolume n w).
Proof.
  induction n as [|n IH]; intros w Hw.
  - apply (keeps_fresh_same k w w); try reflexivity. exact Hw.
  - destruct (active w) eqn:Ea;
      [|rewrite updateVolume_inactive by exact Ea;
        apply (keeps_fresh_same k w w); try reflexivity; exact Hw].
    destruct (fade w) as [f|] eqn:Ef;
      [|rewrite updateVolume_no_fade by exact Ef;
        apply (keeps_fresh_same k w w); try reflexivity; exact Hw].
    assert (Hd : fresh_for k (snd (date_now w))) by exact Hw.
    destruct (write_scaled_fresh k (interp_level f (clock w (reads w))) _ Hd) as [W1 W1'].
    destruct (write_scaled_fresh k (volume_end f) _ Hd) as [W2 W2'].
    destruct (js_lt (clock w (reads w)) (time_end f)) eqn:Et.
    + rewrite (updateVolume_before_end n w f Ea Ef Et).
      destruct (write_scaled _ _) as [u w2|e w2] eqn:E.
      * destruct (W1' u w2 eq_refl) as [[Hlt Hf] [Hc _]].
        apply (keeps_fresh_same k w (set_pending (S (pending w2)) w2)); try reflexivity;
          [split; assumption|exact Hc].
      * exact W1.
    + rewrite (updateVolume_at_end n w f Ea Ef Et).
      destruct (write_scaled (volume_end f) _) as [u w2|e w2] eqn:E; [|exact W2].
      destruct (W2' u w2 eq_refl) as [[Hlt _] [Hc [Hf2 Hn2]]].
      assert (Hk : fid f <> k) by (apply (proj2 Hw); exact Ef).
      assert (Hnf : forall w', fresh_for k (set_fade None w') <-> (k < next_id w')%nat)
        by (intros w'; split; [intros [H _]; exact H|intros H; split; [exact H|discriminate]]).
      destruct (callback f) as [|tag].
      * split; [apply Hnf; exact Hlt|apply calls_extend_refl; exact Hc].
      * assert (H0 : fresh_for k (log_call (fid f) (set_active false w2))).
        { split; [exact Hlt|]. cbn. rewrite Hf2. cbn. rewrite Ef. intros g Hg. injection Hg as <-. exact Hk. }
        assert (H3 : calls_extend_without k w (log_call (fid f) (set_active false w2))).
        { exists [fid f]. split; [cbn; rewrite Hc; reflexivity|]. intros [H|[]]. congruence. }
        destruct (invoke_fresh k (updateVolume n) IH
                    (env (set_active false w2) tag (length (calls (set_active false w2)))) _ H0)
          as [H1 H2].
        cbv zeta. destruct (invoke _ _ _) as [v w4|e w4]; cbn [res_world] in H1, H2.
        -- split; [apply Hnf; apply H1|]. cbn [res_world]. eapply calls_extend_trans; [exact H3|].
           destruct H2 as [l [Hl Hn]]. exists l. split; [exact Hl|exact Hn].
        -- split; [exact H1|eauto with fader].
Qed.

Lemma exec_fresh (k : nat) (o : op) (w : world) :
  fresh_for k w -> keeps_fresh k w (exec o w).
Proof.
  intros Hw. destruct o as [| |d|v cb|cb|cb| |]; cbn [exec].
  - apply start_with_fresh; [apply updateVolume_fresh|exact Hw].
  - apply (keeps_fresh_same k w (set_active false w)); try reflexivity. exact Hw.
  - apply (act_with_fresh k (updateVolume (depth w)) (updateVolume_fresh k _) (ActSetFadeDuration d) w Hw).
  - apply fadeTo_with_fresh; [apply updateVolume_fresh|exact Hw].
  - apply (act_with_fresh k (updateVolume (depth w)) (updateVolume_fresh k _) (ActFadeIn cb) w Hw).
  - apply (act_with_fresh k (updateVolume (depth w)) (updateVolume_fresh k _) (ActFadeOut cb) w Hw).
  - apply updateVolume_fresh, Hw.
  - unfold frame. destruct (pending w) as [|p].
    + apply (keeps_fresh_same k w w); try reflexivity. exact Hw.
    + assert (Hp : fresh_for k (set_pending p w)) by exact Hw.
      apply (keeps_fresh_trans k w (set_pending p w)); [apply calls_extend_refl; reflexivity|].
      apply updateVolume_fresh, Hp.
Qed.

Lemma run_fresh (k : nat) (ops : list op) :
  forall w, fresh_for k w -> calls_extend_without k w (run ops w).
Proof.
  induction ops as [|o ops IH]; intros w Hw; cbn [run].
  - apply calls_extend_refl. reflexivity.
  - destruct (exec_fresh k o w Hw) as [H1 H2]. eauto with fader.
Qed.

Lemma validate_of_fadeTo_ok (v : num) (cb : callback_t) (w w1 : world) :
  fadeTo v cb w = Ok This w1 -> validateVolumeLevel v = true.
Proof.
  unfold fadeTo, fadeTo_with. destruct (validateVolumeLevel v); [reflexivity|discriminate].
Qed.

(** Claim C3.  If a successful [fadeTo] supersedes the fade record [R]
    (every record's identity having been allocated before the call), then
    the new current record is not [R], and in any later sequence of calls
    and animation frames, from the [fadeTo] call itself on, [R]'s callback
    is never invoked, whatever the callbacks that run in between do. *)
Theorem superseded_callback_never_fires (w w1 : world) (R : fade_t)
  (v : num) (cb : callback_t)
  (HR : w.(fade) = Some R)
  (Hids : forall f, w.(fade) = Some f -> (f.(fid) < w.(next_id))%nat)
  (Hok : fadeTo v cb w = Ok This w1) :
  (forall f, w1.(fade) = Some f -> f.(fid) <> R.(fid))
  /\ forall ops, exists l, (run ops w1).(calls) = w.(calls) ++ l /\ ~ In R.(fid) l.
Proof.
  assert (Hw : fresh_for R.(fid) (set_fade None w))
    by (split; [apply (Hids R HR)|discriminate]).
  assert (Hf : keeps_fresh R.(fid) w (fadeTo v cb w)).
  { pose proof (validate_of_fadeTo_ok v cb w w1 Hok) as Hv.
    destruct (fadeTo_with_fresh R.(fid) (updateVolume (depth w)) (updateVolume_fresh R.(fid) _)
                v cb (set_fade None w) Hw) as [H1 H2].
    unfold fadeTo, fadeTo_with in *. rewrite Hv in *. cbn in H1, H2 |- *.
    split; assumption. }
  destruct Hf as [H1 H2]. rewrite Hok in H1, H2; cbn [res_world] in H1, H2.
  split; [apply H1|]. intros ops.
  exact (calls_extend_trans _ _ _ _ H2 (run_fresh _ ops w1 H1)).
Qed.

Lemma exponentialScaler_zero : exponentialScaler (Fin 0) = Fin 0.
Proof. unfold exponentialScaler; cbn. unfold Reqb. destruct (Req_dec_T 0 0); [reflexivity|lra]. Qed.

Lemma fadeTo_w_at_100 : exists w1, fadeTo (Fin 0) NotFunction (w_at 100) = Ok This w1.
Proof.
  unfold fadeTo, fadeTo_with. change (depth (w_at 100)) with (S 8).
  rewrite validate_zero. cbn [new_fade date_now alloc fst snd].
  unfold start_with.
  erewrite updateVolume_before_end; [|reflexivity|reflexivity|].
  2: { cbn. unfold Rltb. rdec; [reflexivity|exfalso; lra]. }
  cbn. rewrite interp_level_fin by lra.
  replace ((100 - 100) / (100 + 500 - 100) * (0 - 0) + 0) with 0 by (field; lra).
  rewrite exponentialScaler_zero, set_volume_ok by lra. eexists; reflexivity.
Qed.

Lemma superseded_callback_never_fires_witness :
  exists w1, fadeTo (Fin 0) NotFunction (w_at 100) = Ok This w1
    /\ (forall f, w1.(fade) = Some f -> f.(fid) <> 0%nat)
    /\ forall ops, exists l, (run ops w1).(calls) = [] ++ l /\ ~ In 0%nat l.
Proof.
  destruct fadeTo_w_at_100 as [w1 Hok]. exists w1. split; [exact Hok|].
  apply (superseded_callback_never_fires (w_at 100) w1
           (mkFade 0 (Fin 0) (Fin 1) (Fin 0) (Fin 500) (Fn 0)) (Fin 0) NotFunction
           eq_refl).
  - intros f Hf. injection Hf as <-. cbn. lia.
  - exact Hok.
Defined.

Lemma duration_check_iff (d : num) :
  negb (isNaN d) && js_gt d (Fin 0) = true <-> duration_accepted d.
Proof.
  unfold duration_accepted. destruct d as [| | |x]; cbn.
  - split; [discriminate|intros [H|[x [H _]]]; discriminate].
  - split; [intros _; left; reflexivity|reflexivity].
  - split; [discriminate|intros [H|[x [H _]]]; discriminate].
  - unfold Rltb; rdec; split; intros H; try discriminate; try reflexivity.
    + right. exists x. split; [reflexivity|lra].
    + destruct H as [H|[y [Hy Hr]]]; [discriminate|injection Hy as <-; lra].
Qed.

Lemma write_scaled_errors (l : num) (w w' : world) (e : error) :
  write_scaled l w = Exn e w' -> e = TypeError \/ e = ScalerError \/ e = IndexSizeError.
Proof.
  unfold write_scaled. destruct (volumeScaler w l) as [v|];
    [|intros H; injection H as <- _; auto].
  unfold set_volume. destruct v as [| | |x]; try (intros H; injection H as <- _; auto).
  destruct (_ && _); [discriminate|intros H; injection H as <- _; auto].
Qed.

(** The tail of the constructor from line 151 on. *)
Lemma construct_duration_part (fd : option num) (w1 : world) :
  let r := match fd with
           | None => Constructed (set_active false (set_fadeDuration (Fin 500) w1))
           | Some d =>
               match setFadeDuration d w1 with
               | Ok _ w2 => Constructed (set_active false w2)
               | Exn e _ => CtorThrows e
               end
           end in
  (forall e, r = CtorThrows e -> e = TypeError)
  /\ ((exists e, r = CtorThrows e) <-> exists d, fd = Some d /\ ~ duration_accepted d).
Proof.
  intros r. subst r. destruct fd as [d|].
  - unfold setFadeDuration. destruct (negb (isNaN d) && js_gt d (Fin 0)) eqn:Hd.
    + split; [intros e H; discriminate|]. split; [intros [e H]; discriminate|].
      intros [d' [Hd' Hn]]. injection Hd' as <-. apply duration_check_iff in Hd. contradiction.
    + split; [intros e H; injection H as <-; reflexivity|].
      split; [intros _; exists d; split; [reflexivity|]|intros _; eexists; reflexivity].
      intros Ha. apply duration_check_iff in Ha. congruence.
  - split; [intros e H; discriminate|]. split; [intros [e H]; discriminate|].
    intros [d [Hd _]]. discriminate.
Qed.

(** ** The constructor *)

(** The constructor throws exactly when the media argument is not a media
    element, a defined [volumeScaler] is not a function, a defined
    [initialVolume] fails validation or its scaled value is not accepted by
    the media element (the scaler throws, or returns a value the setter
    refuses), or a defined [fadeDuration] is refused by [setFadeDuration].
    What it throws is a TypeError, the scaler's exception, or the setter's
    IndexSizeError. *)
Theorem construct_throws_iff (is_media : bool) (o : options) (vol : num)
  (clk : nat -> num) (ev : nat -> nat -> behaviour) (lim : nat) :
  (forall e, construct is_media o vol clk ev lim = CtorThrows e ->
     e = TypeError \/ e = ScalerError \/ e = IndexSizeError)
  /\ ((exists e, construct is_media o vol clk ev lim = CtorThrows e) <->
      is_media = false
      \/ o.(opt_volumeScaler) = ScalerOther
      \/ (exists v, o.(opt_initialVolume) = Some v
            /\ (validateVolumeLevel v = false
                \/ ~ exists x, chosen_scaler o v = Some x /\ volume_ok x))
      \/ (exists d, o.(opt_fadeDuration) = Some d /\ ~ duration_accepted d)).
Proof.
  unfold construct, chosen_scaler. destruct is_media; cbn [negb].
  2: { split; [intros e H; injection H as <-; left; reflexivity|].
       split; [intros _; left; reflexivity|intros _; eexists; reflexivity]. }
  destruct o as [sc iv fd]; cbn [opt_volumeScaler opt_initialVolume opt_fadeDuration].
  destruct sc as [|f|].
  3: { split; [intros e H; injection H as <-; left; reflexivity|].
       split; [intros _; right; left; reflexivity|intros _; eexists; reflexivity]. }
  all: destruct iv as [v|];
    [destruct (validateVolumeLevel v) eqn:Hv;
       [match goal with |- context [write_scaled v ?w0] =>
          destruct (write_scaled_cases v w0) as [[x [Hx [Hok E]]]|[Hno [e0 E]]]; rewrite E end|]|].
  all: try (match goal with
            | E : write_scaled _ _ = Exn ?e0 _ |- _ =>
                split; [intros e H; injection H as <-; exact (write_scaled_errors _ _ _ _ E)|];
                split; [intros _; right; right; left; exists v; split; [reflexivity|right; exact Hno]
                       |intros _; eexists; reflexivity]
            end).
  all: try (match goal with
            | Hv : validateVolumeLevel _ = false |- _ =>
                split; [intros e H; injection H as <-; left; reflexivity|];
                split; [intros _; right; right; left; exists v; split; [reflexivity|left; exact Hv]
                       |intros _; eexists; reflexivity]
            end).
  all: match goal with
       |- context [match ?x with
                   | None => Constructed (set_active false (set_fadeDuration (Fin 500) ?w1))
                   | Some _ => _ end] =>
         destruct (construct_duration_part x w1) as [D1 D2] end.
  all: split; [intros e H; left; exact (D1 e H)|].
  all: rewrite D2; split; [intros H; right; right; right; exact H|].
  all: intros [H|[H|[H|H]]]; try discriminate; try exact H.
  all: destruct H as [v' [Hv' Hr]]; try discriminate.
  all: injection Hv' as <-; destruct Hr as [Hr|Hr]; [congruence|].
  all: exfalso; apply Hr; exists x; split; [exact Hx|exact Hok].
Qed.

(** ** The default scaler *)

Lemma Rpower_10_minus_3 : Rpower 10 (-3) = / 1000.
Proof.
  replace (-3) with (- INR 3) by (cbn; ring).
  rewrite Rpower_Ropp. f_equal.
  rewrite Rpower_pow by lra. cbn. ring.
Qed.

(** [exponentialScaler] maps 0 to exactly 0 and every level in (0,1] into
    (1/1000, 1]: the 30 dB range of its comment. *)
Theorem exponentialScaler_range (l : R) (Hl : 0 <= l <= 1) :
  exists v, exponentialScaler (Fin l) = Fin v
    /\ (l = 0 /\ v = 0 \/ 0 < l /\ / 1000 < v <= 1).
Proof.
  destruct (Req_dec_T l 0) as [->|Hne].
  - exists 0. split; [|left; lra].
    unfold exponentialScaler; cbn; unfold Reqb; rdec; [reflexivity|lra].
  - destruct (exponentialScaler_unit l (proj2 Hl)) as [v [Hv Hr]].
    exists v. split; [exact Hv|right].
    rewrite exponentialScaler_fin in Hv by exact Hne. injection Hv as <-.
    split; [lra|split; [|lra]].
    rewrite <- Rpower_10_minus_3. apply Rpower_lt; lra.
Qed.

Lemma exponentialScaler_range_witness :
  exists v, exponentialScaler (Fin (1/2)) = Fin v
    /\ (1/2 = 0 /\ v = 0 \/ 0 < 1/2 /\ / 1000 < v <= 1).
Proof. apply exponentialScaler_range. lra. Defined.

(** ** A stopped controller *)

(** On an inactive controller, any sequence of [stop()], [updateVolume()]
    and animation frames leaves the media volume, the fade, the callback log
    and the clock untouched, and the controller inactive. *)
Theorem stopped_controller_inert (ops : list op) :
  forall w, Forall (fun o => o = OpStop \/ o = OpUpdate \/ o = OpFrame) ops ->
  w.(active) = false ->
  (run ops w).(media) = w.(media) /\ (run ops w).(fade) = w.(fade)
  /\ (run ops w).(calls) = w.(calls) /\ (run ops w).(reads) = w.(reads)
  /\ (run ops w).(active) = false.
Proof.
  induction ops as [|o ops IH]; intros w Hops Ha; cbn [run].
  - repeat split; assumption.
  - inversion Hops as [|o0 ops0 Ho Hrest]; subst.
    assert (Hstep : let w' := res_world (exec o w) in
              w'.(media) = w.(media) /\ w'.(fade) = w.(fade)
              /\ w'.(calls) = w.(calls) /\ w'.(reads) = w.(reads)
              /\ w'.(active) = false).
    { destruct Ho as [ -> | [ -> | -> ] ]; cbn [exec].
      - repeat split.
      - unfold depth. rewrite updateVolume_inactive by exact Ha. repeat split. exact Ha.
      - unfold frame. destruct (pending w) as [|n]; [repeat split; exact Ha|].
        unfold depth. rewrite updateVolume_inactive by exact Ha. repeat split. exact Ha. }
    destruct Hstep as [H1 [H2 [H3 [H4 H5]]]].
    destruct (IH _ Hrest H5) as [E1 [E2 [E3 [E4 E5]]]].
    repeat split; congruence.
Qed.

Lemma stopped_controller_inert_witness :
  let w := res_world (stop (w_at 100)) in
  (run [OpFrame; OpUpdate; OpStop] w).(media) = w.(media)
  /\ (run [OpFrame; OpUpdate; OpStop] w).(fade) = w.(fade)
  /\ (run [OpFrame; OpUpdate; OpStop] w).(calls) = w.(calls)
  /\ (run [OpFrame; OpUpdate; OpStop] w).(reads) = w.(reads)
  /\ (run [OpFrame; OpUpdate; OpStop] w).(active) = false.
Proof.
  apply stopped_controller_inert; [|reflexivity].
  constructor; [right; right; reflexivity|].
  constructor; [right; left; reflexivity|].
  constructor; [left; reflexivity|constructor].
Defined.

(** [stop()] freezes the fade record; a later [start()] runs a step against
    the record's original start and end times at the current clock: before
    the end time, when the media element accepts the scaled level, it
    writes the level of the wall-clock time (not of the time spent running)
    and resumes the frame loop on the same record. *)
Theorem stop_start_resumes (w : world) (f : fade_t) (v : num) (Hf : w.(fade) = Some f)
  (Hnow : js_lt (w.(clock) w.(reads)) f.(time_end) = true)
  (Hsc : w.(volumeScaler) (interp_level f (w.(clock) w.(reads))) = Some v)
  (Hv : volume_ok v) :
  exists w', start (res_world (stop w)) = Ok This w'
    /\ w'.(media) = v /\ w'.(fade) = Some f /\ w'.(active) = true
    /\ w'.(pending) = S w.(pending).
Proof.
  unfold start, start_with, depth. cbn [stop res_world].
  rewrite (updateVolume_before_end _ (set_active true (set_active false w)) f eq_refl Hf Hnow).
  destruct (write_scaled_cases (interp_level f (clock w (reads w)))
              (snd (date_now (set_active true (set_active false w)))))
    as [[v' [Hv' [_ E]]]|[Hno _]].
  - cbn in Hv'. rewrite Hsc in Hv'. injection Hv' as <-. cbn in E |- *. rewrite E.
    eexists. split; [reflexivity|]. cbn. rewrite Hf. repeat split.
  - exfalso. apply Hno. exists v. split; [exact Hsc|exact Hv].
Qed.

Lemma stop_start_resumes_witness :
  exists w', start (res_world (stop (w_at 100))) = Ok This w'
    /\ w'.(media) = Fin (Rpower 10 ((1 / 5 - 1) * 3))
    /\ w'.(active) = true /\ w'.(pending) = 1%nat.
Proof.
  assert (Hl : interp_level (mkFade 0 (Fin 0) (Fin 1) (Fin 0) (Fin 500) (Fn 0)) (Fin 100)
               = Fin (1 / 5)) by (rewrite interp_level_fin by lra; f_equal; field).
  assert (Hs : exponentialScaler (Fin (1 / 5)) = Fin (Rpower 10 ((1 / 5 - 1) * 3)))
    by (apply exponentialScaler_fin; lra).
  destruct (exponentialScaler_unit (1 / 5) ltac:(lra)) as [x [Hx Hr]].
  rewrite Hs in Hx. injection Hx as Hx.
  destruct (stop_start_resumes (w_at 100) (mkFade 0 (Fin 0) (Fin 1) (Fin 0) (Fin 500) (Fn 0))
              (Fin (Rpower 10 ((1 / 5 - 1) * 3))) eq_refl
              ltac:(apply js_lt_fin; lra)
              ltac:(cbn [volumeScaler clock reads w_at]; rewrite Hl; unfold default_scaler;
                    rewrite Hs; reflexivity)
              ltac:(exists x; split; [rewrite Hx; reflexivity|exact Hr]))
    as [w' [E [Hm [_ [Ha Hp]]]]].
  exists w'. repeat split; assumption.
Defined.

(** * Properties of the linear fader v0.1.0 *)

Module V01_props.
Import V01.

Lemma validPositive_fin (x : R) : 0 < x -> validPositive (ANum (Fin x)) = true.
Proof. intros H. unfold validPositive; cbn; unfold Rltb; rdec; [reflexivity|lra]. Qed.

Lemma validZeroToOne_fin (a : arg) :
  validZeroToOne a = true -> exists x, to_num a = Fin x /\ 0 <= x <= 1.
Proof.
  unfold validZeroToOne. destruct a as [| |[| | |x]]; cbn; try discriminate.
  - intros _. exists 0. split; [reflexivity|lra].
  - unfold Rleb; rdec; try discriminate. intros _. exists x. split; [reflexivity|lra].
Qed.

(** The media element accepts every volume of [0, 1]; on any object the
    write succeeds. *)
Lemma write_vol_ok (x : R) (w : world01) :
  holds_volume w.(media01) = true -> 0 <= x <= 1 ->
  write_vol (Fin x) w = Ok01 (set_vol (Fin x) w).
Proof.
  intros Hm Hx. unfold write_vol.
  destruct (media01 w); try discriminate; [reflexivity|].
  unfold Rleb; rdec; [reflexivity|lra|lra|lra].
Qed.

Lemma write_vol_cases (v : num) (w : world01) :
  write_vol v w = Ok01 (set_vol v w) \/ exists e, write_vol v w = Exn01 e w.
Proof.
  unfold write_vol. destruct (media01 w);
    try (right; eexists; reflexivity); [left; reflexivity|].
  destruct v as [| | |x]; try (right; eexists; reflexivity).
  destruct (Rleb 0 x && Rleb x 1); [left; reflexivity|right; eexists; reflexivity].
Qed.

(** ** Timer bookkeeping *)

Lemma timers_ok_eq (w w' : world01) :
  w'.(intervalTimer) = w.(intervalTimer) -> w'.(live) = w.(live) ->
  w'.(next_handle) = w.(next_handle) -> timers_ok w -> timers_ok w'.
Proof. unfold timers_ok. intros -> -> ->. exact (fun H => H). Qed.

Ltac same_timers w := apply (timers_ok_eq w); [reflexivity|reflexivity|reflexivity|assumption].

Lemma remove_all_same (h : nat) (l : list nat) :
  (forall x, In x l -> x = h) -> remove Nat.eq_dec h l = [].
Proof.
  induction l as [|x l IH]; intros Hl; cbn; [reflexivity|].
  destruct (Nat.eq_dec h x) as [_|Hne].
  - apply IH. intros y Hy. apply Hl. right. exact Hy.
  - exfalso. apply Hne. symmetry. apply Hl. left. reflexivity.
Qed.

(** With the bookkeeping intact, [stop()] leaves no live timer. *)
Lemma stop01_live (w : world01) : timers_ok w -> (stop01 w).(live) = [].
Proof.
  intros [Hin [_ [_ _]]]. unfold stop01.
  destruct (intervalTimer w) as [h|] eqn:E.
  - cbn. apply remove_all_same. intros x Hx. specialize (Hin x Hx).
    congruence.
  - destruct (live w) as [|x l] eqn:El; [reflexivity|].
    specialize (Hin x ltac:(left; reflexivity)). congruence.
Qed.

Lemma stop01_timers_ok (w : world01) : timers_ok w -> timers_ok (stop01 w).
Proof.
  intros Hw. pose proof (stop01_live w Hw) as Hl.
  destruct Hw as [Hin [Hlen [Hpos Hnh]]]. unfold timers_ok. rewrite Hl.
  unfold stop01 in *. destruct (intervalTimer w) eqn:E.
  - cbn. rewrite E. split; [intros x []|split; [lia|split; assumption]].
  - split; [intros x []|split; [cbn; lia|split; rewrite ?E; assumption]].
Qed.

Lemma start_noarg_live (w : world01) :
  timers_ok w ->
  (start_noarg w).(live) = [w.(next_handle)]
  /\ (start_noarg w).(intervalTimer) = Some w.(next_handle)
  /\ timers_ok (start_noarg w).
Proof.
  intros Hw. pose proof Hw as [Hin [Hlen [Hpos Hnh]]].
  assert (Hpre : (if active01 w then stop01 w else w).(live) = []
                 /\ (if active01 w then stop01 w else w).(next_handle) = w.(next_handle)).
  { unfold active01. destruct (intervalTimer w) as [h|] eqn:E.
    - destruct (Nat.eqb h 0) eqn:Eh.
      + apply Nat.eqb_eq in Eh. specialize (Hpos h eq_refl). lia.
      + cbn [negb]. split; [exact (stop01_live w Hw)|].
        unfold stop01. rewrite E. reflexivity.
    - split; [|reflexivity]. destruct (live w) as [|x l] eqn:El; [reflexivity|].
      specialize (Hin x ltac:(left; reflexivity)). congruence. }
  destruct Hpre as [Hl Hn]. unfold start_noarg, set_interval_timer. cbn.
  rewrite Hl, Hn. split; [reflexivity|split; [reflexivity|]].
  split; [|split; [cbn; lia|split]]; cbn.
  - intros x [<-|[]]. reflexivity.
  - intros x Hx. injection Hx as <-. exact Hnh.
  - lia.
Qed.

Lemma setUpdateInterval_timers_ok (a : arg) (w : world01) :
  timers_ok w -> timers_ok (res01 (setUpdateInterval a w)).
Proof.
  intros Hw. unfold setUpdateInterval. destruct (validPositive a); [|exact Hw].
  cbn [res01]. destruct (active01 _).
  - apply start_noarg_live. same_timers w.
  - same_timers w.
Qed.

Lemma start01_timers_ok (a : arg) (w : world01) :
  timers_ok w -> timers_ok (res01 (start01 a w)).
Proof.
  intros Hw. unfold start01.
  pose proof (setUpdateInterval_timers_ok a w Hw) as H.
  destruct a; [apply start_noarg_live; exact Hw| |];
    (destruct (setUpdateInterval _ w); [apply start_noarg_live; exact H|exact H]).
Qed.

Lemma setFadeDuration01_timers_ok (a : arg) (w : world01) :
  timers_ok w -> timers_ok (res01 (setFadeDuration01 a w)).
Proof.
  intros Hw. unfold setFadeDuration01. destruct (validPositive a); [cbn|exact Hw].
  same_timers w.
Qed.

Lemma fadeTo01_timers_ok (v : num) (cb : callback_t) (w : world01) :
  timers_ok w -> timers_ok (res01 (fadeTo01 v cb w)).
Proof.
  intros Hw. unfold fadeTo01. destruct (validZeroToOne _); [cbn|exact Hw].
  same_timers w.
Qed.

Lemma write_vol_timers_ok (v : num) (w : world01) :
  timers_ok w -> timers_ok (res01 (write_vol v w)).
Proof.
  intros Hw. destruct (write_vol_cases v w) as [E|[e E]]; rewrite E; cbn [res01];
    [same_timers w|exact Hw].
Qed.

Section Timers.
Variable uv : world01 -> result01.
Hypothesis Huv : forall w, timers_ok w -> timers_ok (res01 (uv w)).

Lemma act01_timers_ok (a : action01) (w : world01) :
  timers_ok w -> timers_ok (res01 (act01_with uv a w)).
Proof.
  intros Hw. destruct a; cbn [act01_with].
  - apply start01_timers_ok, Hw.
  - apply stop01_timers_ok, Hw.
  - apply setUpdateInterval_timers_ok, Hw.
  - apply setFadeDuration01_timers_ok, Hw.
  - apply fadeTo01_timers_ok, Hw.
  - apply fadeTo01_timers_ok, Hw.
  - apply fadeTo01_timers_ok, Hw.
  - apply Huv, Hw.
Qed.

Lemma run_body01_timers_ok (l : list (action01 * bool)) (w : world01) :
  timers_ok w -> timers_ok (res01 (run_body01 uv l w)).
Proof.
  revert w. induction l as [|[a c] l IH]; intros w Hw; cbn [run_body01]; [exact Hw|].
  pose proof (act01_timers_ok a w Hw) as H.
  destruct (act01_with uv a w) as [w'|e w']; cbn [res01] in H.
  - apply IH, H.
  - destruct c; [apply IH, H|exact H].
Qed.

Lemma invoke01_timers_ok (b : behaviour01) (w : world01) :
  timers_ok w -> timers_ok (res01 (invoke01 uv b w)).
Proof.
  intros Hw. unfold invoke01.
  pose proof (run_body01_timers_ok b.(body01) w Hw) as H.
  destruct (run_body01 uv _ w); cbn [res01] in H |- *; [destruct (throws01 b)|]; exact H.
Qed.

End Timers.

Lemma updateVolume01_timers_ok (n : nat) (w : world01) :
  timers_ok w -> timers_ok (res01 (updateVolume01 n w)).
Proof.
  revert w. induction n as [|n IH]; intros w Hw; cbn [updateVolume01]; [exact Hw|].
  destruct (fade01_ w) as [f|]; [|exact Hw].
  assert (H1 : timers_ok (snd (date_now01 w))) by same_timers w.
  destruct (date_now01 w) as [now w1] eqn:Ed. cbn [snd] in H1.
  destruct (js_gt _ _); [apply write_vol_timers_ok, H1|].
  pose proof (write_vol_timers_ok (target f) w1 H1) as H2.
  destruct (write_vol (target f) w1) as [w2|e w2]; cbn [res01] in H2 |- *; [|exact H2].
  destruct (callback01 f) as [|tag]; [cbn; same_timers w2|].
  assert (H3 : timers_ok (log_call01 (fid01 f) w2)) by same_timers w2.
  pose proof (invoke01_timers_ok (updateVolume01 n) IH
                (env01 w2 tag (length (calls01 w2))) _ H3) as H4.
  destruct (invoke01 _ _ _) as [w3|e w3]; cbn [res01] in H4 |- *; [same_timers w3|exact H4].
Qed.

Lemma exec01_timers_ok (o : op01) (w : world01) :
  timers_ok w -> timers_ok (res01 (exec01 o w)).
Proof.
  intros Hw. destruct o as [a| |a|a|v cb|h]; cbn [exec01].
  - apply start01_timers_ok, Hw.
  - apply stop01_timers_ok, Hw.
  - apply setUpdateInterval_timers_ok, Hw.
  - apply setFadeDuration01_timers_ok, Hw.
  - apply fadeTo01_timers_ok, Hw.
  - unfold tick. destruct (existsb _ _); [apply updateVolume01_timers_ok, Hw|exact Hw].
Qed.

Lemma run01_timers_ok (ops : list op01) (w : world01) :
  timers_ok w -> timers_ok (run01 ops w).
Proof.
  revert w. induction ops as [|o ops IH]; intros w Hw; cbn [run01];
    [exact Hw|apply IH, exec01_timers_ok, Hw].
Qed.

Lemma construct01_timers_ok (m : jsv) (iv fd ui : arg) (v0 : num)
  (clk : nat -> num) (ev : nat -> nat -> behaviour01) (lim : nat) (w : world01) :
  construct01 m iv fd ui v0 clk ev lim = Ok01 w -> timers_ok w.
Proof.
  intros Hc. unfold construct01 in Hc.
  set (w0 := mkWorld01 v0 m None [] None NaN None [] clk 0 1 0 ev lim) in Hc.
  assert (H0 : timers_ok w0).
  { split; [intros x []|split; [cbn; lia|split; [intros x Hx; discriminate|cbn; lia]]]. }
  cbn [instanceof_media] in Hc.
  assert (H1 : timers_ok (res01 (if validZeroToOne iv then write_vol (to_num iv) w0
                                 else Ok01 w0)))
    by (destruct (validZeroToOne iv); [apply write_vol_timers_ok, H0|exact H0]).
  destruct (if validZeroToOne iv then _ else _) as [w1|e w1]; [|discriminate].
  cbn [res01] in H1.
  assert (H2 : timers_ok (match setFadeDuration01 fd w1 with
                          | Ok01 w => w
                          | Exn01 _ w => res01 (setFadeDuration01 (ANum (Fin 500)) w)
                          end)).
  { pose proof (setFadeDuration01_timers_ok fd w1 H1) as H.
    destruct (setFadeDuration01 fd w1); [exact H|apply setFadeDuration01_timers_ok, H]. }
  destruct (timer_enabled ui); [|injection Hc as <-; exact H2].
  match type of Hc with start01 AUndefined ?w3 = _ =>
    assert (H3 : timers_ok w3) end.
  { pose proof (setUpdateInterval_timers_ok ui _ H2) as H.
    destruct (setUpdateInterval ui _); [exact H|apply setUpdateInterval_timers_ok, H]. }
  pose proof (start01_timers_ok AUndefined _ H3) as H4. rewrite Hc in H4. exact H4.
Qed.

(** The v0.1 fader never runs two interval timers: from construction on,
    through any method calls, timer ticks and the calls that callbacks make
    while they run, at most one timer is live, and it is the one in
    [this._intervalTimer]. *)
Theorem at_most_one_timer (m : jsv) (iv fd ui : arg) (v0 : num)
  (clk : nat -> num) (ev : nat -> nat -> behaviour01) (lim : nat) (w : world01)
  (Hc : construct01 m iv fd ui v0 clk ev lim = Ok01 w) :
  forall ops, (length (run01 ops w).(live) <= 1)%nat
    /\ forall h, In h (run01 ops w).(live) -> (run01 ops w).(intervalTimer) = Some h.
Proof.
  intros ops.
  destruct (run01_timers_ok ops w (construct01_timers_ok m iv fd ui v0 clk ev lim w Hc))
    as [Hin [Hlen _]].
  split; assumption.
Qed.

Lemma at_most_one_timer_witness :
  exists w, construct01 JMedia AUndefined AUndefined AUndefined (Fin 1) (fun _ => Fin 0)
              (fun _ _ => mkBehaviour01 [(A_Start AUndefined, false)] false) 8 = Ok01 w
    /\ (length (run01 [Start01 AUndefined; FadeTo01 (Fin 1) (Fn 0); Tick 2; Tick 3;
                       Stop01; Start01 AUndefined] w).(live) <= 1)%nat.
Proof.
  eexists. split; [reflexivity|].
  apply (proj1 (at_most_one_timer JMedia AUndefined AUndefined AUndefined (Fin 1)
                  (fun _ => Fin 0) (fun _ _ => mkBehaviour01 [(A_Start AUndefined, false)] false)
                  8 _ eq_refl _)).
Defined.


(** ** [stop] in v0.1 *)

(** [stop()] clears the running timer but leaves [this._intervalTimer]
    set: afterwards no timer is live and timer ticks change nothing, yet
    the [active] getter still reports [true]. *)
Theorem stop_leaves_active (w : world01) (Hw : timers_ok w) (Ha : active01 w = true) :
  active01 (stop01 w) = true /\ (stop01 w).(live) = []
  /\ forall h, tick h (stop01 w) = Ok01 (stop01 w).
Proof.
  pose proof (stop01_live w Hw) as Hl.
  split; [|split; [exact Hl|]].
  - unfold active01, stop01 in *. destruct (intervalTimer w) eqn:E; [|discriminate].
    cbn. rewrite E. exact Ha.
  - intros h. unfold tick. rewrite Hl. reflexivity.
Qed.

Lemma stop_leaves_active_witness :
  timers_ok w_running /\ active01 w_running = true
  /\ active01 (stop01 w_running) = true /\ (stop01 w_running).(live) = [].
Proof.
  assert (Hw : timers_ok w_running).
  { split; [|split; [|split]]; cbn.
    - intros x [<-|[]]. reflexivity.
    - lia.
    - intros x Hx. injection Hx as <-. lia.
    - lia. }
  split; [exact Hw|split; [reflexivity|]].
  destruct (stop_leaves_active w_running Hw eq_refl) as [H1 [H2 _]].
  split; [exact H1|exact H2].
Defined.

(** ** Fading in v0.1 *)

(** One timer tick of a v0.1 fade that still has more than one interval
    to go moves the volume a fraction [i / (T - t)] of the way to the
    target, with [0 < i / (T - t) < 1]: the volume stays between its old
    value and the target, the element accepts it, and the fade stays
    pending. *)
Theorem increment_step (n : nat) (w : world01) (f : fade01) (b T v i t : R)
  (Hf : w.(fade01_) = Some f) (Hb : f.(target) = Fin b) (HT : f.(timestamp) = Fin T)
  (Hv : w.(vol) = Fin v) (Hu : w.(updateInterval) = Some (Fin i)) (Hi : 0 < i)
  (Ht : w.(clock01) w.(reads01) = Fin t) (Hr : i < T - t)
  (Hm : holds_volume w.(media01) = true) (Hvr : 0 <= v <= 1) (Hbr : 0 <= b <= 1) :
  exists v' w', updateVolume01 (S n) w = Ok01 w' /\ w'.(vol) = Fin v'
    /\ w'.(fade01_) = Some f /\ w'.(calls01) = w.(calls01)
    /\ b - v' = (b - v) * (1 - i / (T - t))
    /\ 0 < i / (T - t) < 1
    /\ (v <= b -> v <= v' <= b) /\ (b <= v -> b <= v' <= v).
Proof.
  assert (Hpos : 0 < T - t) by lra.
  assert (Hr1 : 0 < i / (T - t) < 1).
  { split; [apply Rdiv_lt_0_compat; lra|].
    apply (Rmult_lt_reg_r (T - t)); [lra|].
    unfold Rdiv. rewrite Rmult_assoc, Rinv_l by lra. lra. }
  set (v' := v + (b - v) * (i / (T - t))).
  assert (Hbetween : (v <= b -> v <= v' <= b) /\ (b <= v -> b <= v' <= v))
    by (destruct Hr1; unfold v'; split; intros; split; nra).
  assert (E1 : js_gt (js_sub (Fin T) (Fin t)) (Fin i) = true)
    by (unfold js_gt; cbn; unfold Rltb; rdec; [reflexivity|lra]).
  assert (E2 : js_add (Fin v) (js_div (js_mul (js_sub (Fin b) (Fin v)) (Fin i))
                                      (js_sub (Fin T) (Fin t))) = Fin v')
    by (cbn; unfold Reqb; rdec; [lra|unfold v'; f_equal; field; lra]).
  exists v'. eexists.
  cbn [updateVolume01]. unfold date_now01, interval_num, increment. rewrite Hf.
  cbn [vol updateInterval fade01_ calls01 clock01 reads01].
  rewrite Ht, HT, Hu, Hv, Hb, E1, E2.
  erewrite write_vol_ok; [| exact Hm | destruct Hbetween as [H1 H2];
                                       destruct (Rle_dec v b); [apply H1 in r|]; lra].
  split; [reflexivity|]. split; [reflexivity|].
  split; [reflexivity|]. split; [reflexivity|].
  split; [unfold v'; ring|]. split; [exact Hr1|exact Hbetween].
Qed.

Lemma increment_step_witness :
  exists v' w', updateVolume01 9 w_fading01 = Ok01 w' /\ w'.(vol) = Fin v'
    /\ 1 - v' = (1 - 0) * (1 - 50 / (200 - 0)).
Proof.
  destruct (increment_step 8 w_fading01 (mkFade01 0 (Fin 1) (Fin 200) (Fn 0)) 1 200 0 50 0
              eq_refl eq_refl eq_refl eq_refl eq_refl ltac:(lra) eq_refl ltac:(lra)
              eq_refl ltac:(lra) ltac:(lra))
    as [v' [w' [H1 [H2 [_ [_ [H3 _]]]]]]].
  exists v', w'. split; [exact H1|split; [exact H2|exact H3]].
Defined.



End V01_props.
